(** * Tabular Q-learning agent (HW4/src/q_learning.py): model and properties

    The agent of [q_learning.py] is embedded as state-passing code over a
    "world" made of the Gymnasium environment, the random source of
    [src.random], the numpy array [state_action_values] and the list of
    calls made to the two collaborators.

    - Values are IEEE binary64 numbers (numpy's float64), modelled by Rocq's
      primitive floats, with their NaN, infinities and signed zeros.
    - Python exceptions are modelled by an error result; a failing
      operation leaves the world as it was when it failed.
    - States and actions are natural numbers, as a Gymnasium [Discrete]
      space yields them; an index past the end of an array raises
      [IndexError], as numpy does.
    - [steps] and [num_bins] are Python integers, possibly negative.
    - [np.mean] of a slice of rewards is numpy's sum of float64 entries, by
      pairwise summation, over the number of entries.
    - The [while] loop of [predict] is bounded by a fuel argument. *)

From Stdlib Require Import ZArith Floats Lia Bool Sorted.
From stdpp Require Import base list.

Set Default Proof Using "Type".

(** ** Python outcomes *)

(** The exceptions the code can raise through numpy indexing, reductions,
    allocation and integer division. *)
Inductive exn : Type :=
| ValueError
| ZeroDivisionError
| IndexError.

(** [Timeout] is not a Python outcome: it marks that the fuel given to the
    [while] loop of [predict] ran out before the loop exited. *)
Inductive result (A : Type) : Type :=
| Ok (a : A)
| Raise (e : exn)
| Timeout.
Arguments Ok {A} a.
Arguments Raise {A} e.
Arguments Timeout {A}.

(** ** The two collaborators *)

(** What [env.step(action)] returns (the trailing info dictionary is never
    read by the agent). *)
Record StepData : Type := mkStep {
  sd_state : nat;         (* step_dat[0] *)
  sd_reward : float;      (* step_dat[1] *)
  sd_terminated : bool;   (* step_dat[2] *)
  sd_truncated : bool     (* step_dat[3] *)
}.

(** The Gymnasium interface the agent consumes; [E] is the hidden state of
    the environment object. *)
Class Environment (E : Type) : Type := {
  action_space_n : nat;
  observation_space_n : nat;
  env_reset : E -> nat * E;
  env_step : nat -> E -> StepData * E
}.

(** Modelled from the spec: the module [src.random] is not part of the
    sources.  Section 6 gives its two operations: [uniform(low, high)]
    returns a real and [randint(low, high)] an integer, both drawn from the
    single seeded generator whose state is [G].  Nothing is said about
    [randint] on an empty range, so the draw may raise there ([inl]). *)
Class RandomSource (G : Type) : Type := {
  rand_uniform : float -> float -> G -> float * G;
  rand_randint : nat -> nat -> G -> (exn + nat) * G
}.

(** Calls made to the collaborators, newest first in a trace. *)
Inductive Event : Type :=
| EvReset
| EvStep (action : nat)
| EvUniform (low high : float)
| EvRandint (low high : nat).

(** ** numpy on rows of float64 *)

Abbreviation QTable := (list (list float)).

(** [np.zeros((n_states, n_actions))] *)
Definition np_zeros2 (n_states n_actions : nat) : QTable :=
  replicate n_states (replicate n_actions 0%float).

(** numpy's scalar [maximum]: [(in1 >= in2 || isnan(in1)) ? in1 : in2]. *)
Definition np_maximum (x y : float) : float :=
  if (y <=? x)%float || is_nan x then x else y.

(** [np.max(row)]: the reduction of [maximum] from the first entry; an
    empty row has no identity and raises. *)
Definition np_max (row : list float) : result float :=
  match row with
  | [] => Raise ValueError
  | x :: xs => Ok (fold_left np_maximum xs x)
  end.

(** [np.where(row == v)[0]], counting positions from [i]. *)
Fixpoint np_where_eq (row : list float) (v : float) (i : nat) : list nat :=
  match row with
  | [] => []
  | x :: xs =>
      if (x =? v)%float then i :: np_where_eq xs v (S i)
      else np_where_eq xs v (S i)
  end.

Definition float_of_nat (n : nat) : float :=
  of_uint63 (Uint63.of_Z (Z.of_nat n)).

(** numpy adds the entries of a contiguous float64 array by pairwise
    summation (the inner loop of [np.add.reduce]).  Fewer than 8 entries are
    added from left to right, starting from [-0.0]. *)
Definition sum_small (l : list float) : float :=
  fold_left add l neg_zero.

(** From 8 to 128 entries, eight accumulators [r] start as the first eight
    entries and take up the following full groups of eight, entry by entry;
    [add_blocks k r l] does so for [k] groups of [l]. *)
Fixpoint add_blocks (k : nat) (r l : list float) : list float * list float :=
  match k with
  | O => (r, l)
  | S k' => add_blocks k' (zip_with add r (take 8 l)) (drop 8 l)
  end.

(** [((r[0] + r[1]) + (r[2] + r[3])) + ((r[4] + r[5]) + (r[6] + r[7]))] *)
Definition combine8 (r : list float) : float :=
  match r with
  | [r0; r1; r2; r3; r4; r5; r6; r7] =>
      (((r0 + r1) + (r2 + r3)) + ((r4 + r5) + (r6 + r7)))%float
  | _ => 0%float
  end.

(** The accumulators are combined and the entries left over (fewer than
    eight) are added to the result from left to right. *)
Definition sum_block (l : list float) : float :=
  let '(r, rest) := add_blocks (length l / 8 - 1) (take 8 l) (drop 8 l) in
  fold_left add rest (combine8 r).

(** More than 128 entries are split at half the length rounded down to a
    multiple of 8, and the sums of the two parts are added.  [fuel] bounds
    the depth of the splitting; the length of the list is enough. *)
Fixpoint pairwise_sum (fuel : nat) (l : list float) : float :=
  if length l <? 8 then sum_small l
  else if length l <=? 128 then sum_block l
  else
    match fuel with
    | O => sum_block l
    | S fuel' =>
        let n2 := length l / 2 - (length l / 2) mod 8 in
        (pairwise_sum fuel' (take n2 l) + pairwise_sum fuel' (drop n2 l))%float
    end.

(** [np.add.reduce(l)]: the sum of no entry is [0.0]; otherwise the result
    starts as [-0.0], the identity of addition that keeps the sign of a sum
    of negative zeros, and the pairwise sum of the entries is added to it.
    (numpy before 1.25 starts from [+0.0] in both places; the sum then
    differs in one case only, a slice whose entries are all [-0.0], and there
    only in the sign of the zero.) *)
Definition np_sum (l : list float) : float :=
  match l with
  | [] => 0%float
  | _ => (neg_zero + pairwise_sum (length l) l)%float
  end.

(** [np.mean(l)]: the sum of the entries, as numpy adds them, over their
    count.  On the empty list this is [0/0], that is NaN. *)
Definition np_mean (l : list float) : float :=
  (np_sum l / float_of_nat (length l))%float.

(** ** Python lists *)

(** A slice bound as Python normalises it against the length. *)
Definition py_bound (len i : Z) : nat :=
  Z.to_nat (if (i <? 0)%Z then Z.max 0 (i + len) else Z.min i len).

(** [l[start:end]] *)
Definition py_slice {A} (l : list A) (start_ind end_ind : Z) : list A :=
  let len := Z.of_nat (length l) in
  let lo := py_bound len start_ind in
  let hi := py_bound len end_ind in
  take (hi - lo) (drop lo l).

(** ** The world and its monad *)

Section Agent.
Context {E G : Type} `{!Environment E} `{!RandomSource G}.

Record World : Type := mkWorld {
  w_env : E;
  w_rng : G;
  w_sav : QTable;           (* the array [state_action_values] *)
  w_trace : list Event
}.

Definition M (A : Type) : Type := World -> result A * World.

Definition ret {A} (a : A) : M A := fun w => (Ok a, w).

Definition raise {A} (e : exn) : M A := fun w => (Raise e, w).

Definition timeout {A} : M A := fun w => (Timeout, w).

Definition bind {A B} (c : M A) (k : A -> M B) : M B :=
  fun w =>
    match c w with
    | (Ok a, w') => k a w'
    | (Raise e, w') => (Raise e, w')
    | (Timeout, w') => (Timeout, w')
    end.

Definition lift {A} (r : result A) : M A := fun w => (r, w).

Definition log (ev : Event) (w : World) : list Event := ev :: w_trace w.

(** [env.reset()[0]] *)
Definition call_reset : M nat :=
  fun w =>
    let '(s, e') := env_reset (w_env w) in
    (Ok s, mkWorld e' (w_rng w) (w_sav w) (log EvReset w)).

(** [env.step(action)] *)
Definition call_step (action : nat) : M StepData :=
  fun w =>
    let '(sd, e') := env_step action (w_env w) in
    (Ok sd, mkWorld e' (w_rng w) (w_sav w) (log (EvStep action) w)).

(** [src.random.uniform(low, high)] *)
Definition call_uniform (low high : float) : M float :=
  fun w =>
    let '(u, g') := rand_uniform low high (w_rng w) in
    (Ok u, mkWorld (w_env w) g' (w_sav w) (log (EvUniform low high) w)).

(** [src.random.randint(low, high)] *)
Definition call_randint (low high : nat) : M nat :=
  fun w =>
    let '(r, g') := rand_randint low high (w_rng w) in
    (match r with inr k => Ok k | inl e => Raise e end,
     mkWorld (w_env w) g' (w_sav w) (log (EvRandint low high) w)).

(** [state_action_values = table] *)
Definition set_sav (table : QTable) : M unit :=
  fun w => (Ok tt, mkWorld (w_env w) (w_rng w) table (w_trace w)).

Definition get_sav : M QTable := fun w => (Ok (w_sav w), w).

(** [state_action_values[state]]; numpy raises on an index past the end. *)
Definition read_row (state : nat) : M (list float) :=
  fun w =>
    match w_sav w !! state with
    | Some row => (Ok row, w)
    | None => (Raise IndexError, w)
    end.

(** [state_action_values[state][action] += f(state_action_values[state][action])] *)
Definition update_entry (state action : nat) (f : float -> float) : M unit :=
  fun w =>
    match w_sav w !! state with
    | None => (Raise IndexError, w)
    | Some row =>
        match row !! action with
        | None => (Raise IndexError, w)
        | Some q =>
            (Ok tt,
             mkWorld (w_env w) (w_rng w)
               (<[state := <[action := f q]> row]> (w_sav w)) (w_trace w))
        end
    end.

End Agent.

Arguments World E G : clear implicits.
Arguments M E G A : clear implicits.

Declare Scope agent_scope.
Delimit Scope agent_scope with agent.
Notation "x <- c ;; k" := (bind c (fun x => k))
  (at level 100, c at next level, right associativity) : agent_scope.
Notation "c ;;; k" := (bind c (fun _ => k))
  (at level 100, right associativity) : agent_scope.
Local Open Scope agent_scope.

(** ** The agent *)

(** [QLearning.__init__]: the three hyperparameters, stored as given. *)
Record QLearning : Type := mkQLearning {
  epsilon : float;
  alpha : float;
  gamma : float
}.

(** The loop-carried variables of [fit]. *)
Record FitState : Type := mkFit {
  current_state : nat;
  all_rewards : list float
}.

(** [np.zeros([num_bins])]: numpy refuses a negative dimension. *)
Definition np_zeros1 (num_bins : Z) : result (list float) :=
  if (num_bins <? 0)%Z then Raise ValueError
  else Ok (replicate (Z.to_nat num_bins) 0%float).

(** [int(np.ceil(steps / num_bins))].  The quotient is taken in binary64
    and then rounded up; for operands below 2^53 in magnitude this is the
    exact integer ceiling, which is what the model computes. *)
Definition ceil_div (steps num_bins : Z) : result Z :=
  if (num_bins =? 0)%Z then Raise ZeroDivisionError
  else Ok (- ((- steps) / num_bins))%Z.

(** The right-hand side of the update of line 135, as Python groups it. *)
Definition td_update (self : QLearning) (reward max_next_Q q : float) : float :=
  (q + alpha self * (reward + gamma self * max_next_Q - q))%float.

(** The body of the binning loop for one [bin_ind] (lines 143-145). *)
Definition bin_average (rewards : list float) (num_bins bin_size : Z)
    (bin_ind : nat) : float :=
  let start_ind := (Z.of_nat bin_ind * bin_size)%Z in
  let end_ind :=
    if (Z.of_nat bin_ind <? num_bins - 1)%Z then (start_ind + bin_size)%Z
    else Z.of_nat (length rewards) in
  if (start_ind <? end_ind)%Z then np_mean (py_slice rewards start_ind end_ind)
  else 0%float.

(** [for bin_ind in range(num_bins): avg_rewards[bin_ind] = ...] *)
Definition average_bins (rewards : list float) (num_bins bin_size : Z)
    (avg_rewards : list float) : list float :=
  fold_left
    (fun avg bin_ind => <[bin_ind := bin_average rewards num_bins bin_size bin_ind]> avg)
    (seq 0 (Z.to_nat num_bins)) avg_rewards.

Section Algorithms.
Context {E G : Type} `{!Environment E} `{!RandomSource G}.

Local Abbreviation M := (M E G).

(** The tie-breaking argmax, written twice in the source with the same
    text (lines 107-113 in [fit], 206-212 in [predict]): the maximum of
    the row, the positions that hold it, one integer draw among them. *)
Definition argmax_tiebreak (row : list float) : M nat :=
  max_value <- lift (np_max row);;
  let indices := np_where_eq row max_value 0 in
  rand_num_choice <- call_randint 0 (length indices);;
  match indices !! rand_num_choice with
  | Some action => ret action
  | None => raise IndexError
  end.

(** Lines 101-113: explore with probability epsilon, otherwise exploit. *)
Definition select_action (self : QLearning) (state : nat) : M nat :=
  rand_num_expl <- call_uniform 0 1;;
  if (rand_num_expl <? epsilon self)%float then
    call_randint 0 action_space_n
  else
    row <- read_row state;;
    argmax_tiebreak row.

(** Lines 115-138: take the step, then update the table and the state. *)
Definition step_and_update (self : QLearning) (st : FitState) (action : nat)
    : M FitState :=
  step_dat <- call_step action;;
  let last_state := current_state st in
  let current_state := sd_state step_dat in
  let truncated := sd_truncated step_dat in
  let terminated := sd_terminated step_dat in
  next_state <- (if truncated || terminated then call_reset else ret 0);;
  let reward := sd_reward step_dat in
  let all_rewards := all_rewards st ++ [reward] in
  next_row <- read_row current_state;;
  max_next_Q <- lift (np_max next_row);;
  update_entry last_state action (td_update self reward max_next_Q);;;
  ret (mkFit (if truncated || terminated then next_state else current_state)
             all_rewards).

(** Lines 101-138: one iteration of the training loop. *)
Definition fit_step (self : QLearning) (st : FitState) : M FitState :=
  action <- select_action self (current_state st);;
  step_and_update self st action.

(** [for step in range(steps)] *)
Fixpoint fit_loop (self : QLearning) (n : nat) (st : FitState) : M FitState :=
  match n with
  | O => ret st
  | S n' => st' <- fit_step self st;; fit_loop self n' st'
  end.

(** [QLearning.fit(env, steps, num_bins)] *)
Definition fit (self : QLearning) (steps num_bins : Z)
    : M (QTable * list float) :=
  set_sav (np_zeros2 observation_space_n action_space_n);;;
  avg_rewards <- lift (np_zeros1 num_bins);;
  current_state <- call_reset;;
  st <- fit_loop self (Z.to_nat steps) (mkFit current_state []);;
  bin_size <- lift (ceil_div steps num_bins);;
  let avg_rewards := average_bins (all_rewards st) num_bins bin_size avg_rewards in
  state_action_values <- get_sav;;
  ret (state_action_values, avg_rewards).

(** [while not (terminated or truncated)] of [predict], lines 202-223;
    [fuel] bounds the number of iterations. *)
Fixpoint predict_while (fuel : nat) (terminated truncated : bool)
    (current_state : nat) (states actions : list nat) (rewards : list float)
    : M (list nat * list nat * list float) :=
  if negb (terminated || truncated) then
    match fuel with
    | O => timeout
    | S fuel' =>
        action_values <- read_row current_state;;
        action <- argmax_tiebreak action_values;;
        sd <- call_step action;;
        predict_while fuel' (sd_terminated sd) (sd_truncated sd) (sd_state sd)
          (states ++ [sd_state sd]) (actions ++ [action])
          (rewards ++ [sd_reward sd])
    end
  else ret (states, actions, rewards).

(** [QLearning.predict(env, state_action_values)]; the table passed in is
    the one held by the world. *)
Definition predict (fuel : nat) : M (list nat * list nat * list float) :=
  current_state <- call_reset;;
  predict_while fuel false false current_state [] [] [].

End Algorithms.

(** ** Concrete collaborators, used to run the model *)

(** The environment of the end-to-end scenario of the spec: two states, two
    actions; from the start state 0, action 0 pays 1 and action 1 pays 0,
    and either ends the episode. *)
Definition bandit_step (action : nat) (e : unit) : StepData * unit :=
  (mkStep 0 (if Nat.eqb action 0 then 1%float else 0%float) true false, e).

Definition BanditEnv : Environment unit :=
  {| action_space_n := 2; observation_space_n := 2;
     env_reset := fun e => (0, e);
     env_step := bandit_step |}.

(** An environment that replays a script of step results, whatever the
    action; once the script is used up it ends the episode with reward 0. *)
Definition script_step (action : nat) (e : list StepData)
    : StepData * list StepData :=
  match e with
  | sd :: rest => (sd, rest)
  | [] => (mkStep 0 0%float true false, [])
  end.

Definition ScriptEnv (n_actions n_states : nat) : Environment (list StepData) :=
  {| action_space_n := n_actions; observation_space_n := n_states;
     env_reset := fun e => (0, e);
     env_step := script_step |}.

(** A corridor: the hidden state counts the steps taken; the third step
    reaches state 3 and terminates the episode.  Action 1 pays 1, action 0
    pays nothing. *)
Definition corridor_step (action : nat) (e : nat) : StepData * nat :=
  (mkStep (Nat.min (S e) 3) (if Nat.eqb action 1 then 1%float else 0%float)
     (3 <=? S e) false, S e).

Definition CorridorEnv : Environment nat :=
  {| action_space_n := 2; observation_space_n := 4;
     env_reset := fun _ => (0, 0);
     env_step := corridor_step |}.

(** A counting random source: every real draw is one half, and the k-th
    integer draw over [low, high) is [low + k mod (high - low)]; a draw over
    an empty range fails as numpy's does. *)
Definition counter_randint (low high : nat) (g : nat) : (exn + nat) * nat :=
  if low <? high then (inr (low + g mod (high - low)), S g)
  else (inl ValueError, S g).

Definition CounterRng : RandomSource nat :=
  {| rand_uniform := fun _ _ g => (0.5%float, g);
     rand_randint := counter_randint |}.

Definition world0 {E G} (e : E) (g : G) (table : QTable) : World E G :=
  mkWorld e g table [].


(** ** Vocabulary of the statements *)

(** [table[s][a]], when both indices are in range. *)
Definition entry (table : QTable) (s a : nat) : option float :=
  match table !! s with
  | Some row => row !! a
  | None => None
  end.

(** The number of environment steps recorded in a trace. *)
Fixpoint step_calls (t : list Event) : nat :=
  match t with
  | [] => 0
  | EvStep _ :: t' => S (step_calls t')
  | _ :: t' => step_calls t'
  end.

(** The numbers of real draws, integer draws and resets recorded in a
    trace. *)
Fixpoint uniform_calls (t : list Event) : nat :=
  match t with
  | [] => 0
  | EvUniform _ _ :: t' => S (uniform_calls t')
  | _ :: t' => uniform_calls t'
  end.

Fixpoint randint_calls (t : list Event) : nat :=
  match t with
  | [] => 0
  | EvRandint _ _ :: t' => S (randint_calls t')
  | _ :: t' => randint_calls t'
  end.

Fixpoint reset_calls (t : list Event) : nat :=
  match t with
  | [] => 0
  | EvReset :: t' => S (reset_calls t')
  | _ :: t' => reset_calls t'
  end.

(** A call to the environment, as opposed to a draw from the random
    source. *)
Definition env_call (ev : Event) : Prop :=
  match ev with
  | EvReset | EvStep _ => True
  | _ => False
  end.

(** A table of [n_states] rows of [n_actions] entries each. *)
Definition table_shape (n_states n_actions : nat) (table : QTable) : Prop :=
  length table = n_states /\ Forall (fun row => length row = n_actions) table.

(** Action [a] is greedy in state [s]: its value equals the maximum of the
    row of [s], which bounds every entry of the row. *)
Definition greedy_at (table : QTable) (s a : nat) : Prop :=
  exists row m v,
    table !! s = Some row /\ np_max row = Ok m /\
    row !! a = Some v /\ (v =? m)%float = true /\
    forall x, x ∈ row -> (x <=? m)%float = true.

(** The slice of the reward trace that the binning loop takes for
    [bin_ind], with the bounds of lines 143-144. *)
Definition bin_slice (rewards : list float) (num_bins bin_size : Z)
    (bin_ind : nat) : list float :=
  let start_ind := (Z.of_nat bin_ind * bin_size)%Z in
  let end_ind :=
    if (Z.of_nat bin_ind <? num_bins - 1)%Z then (start_ind + bin_size)%Z
    else Z.of_nat (length rewards) in
  py_slice rewards start_ind end_ind.

Section Vocabulary.
Context {E G : Type} `{!Environment E} `{!RandomSource G}.

(** A computation that leaves the array [state_action_values] alone. *)
Definition sav_stable {A} (c : M E G A) : Prop :=
  forall w, w_sav (c w).2 = w_sav w.

(** A computation that fails before it has called the environment or the
    random source. *)
Definition fails_before_interaction {A} (c : M E G A) (w : World E G) : Prop :=
  exists e, (c w).1 = Raise e /\ w_trace (c w).2 = w_trace w.

(** The contract of [randint] in section 6 of the spec, for the calls the
    agent makes (the lower bound is always 0). *)
Definition randint_in_range : Prop :=
  forall (high : nat) (g : G), 0 < high ->
    exists k, (rand_randint 0 high g).1 = inr k /\ k < high.

(** The contract of [uniform(0, 1)]: a draw in [0, 1). *)
Definition uniform_below_one : Prop :=
  forall g : G, ((rand_uniform 0 1 g).1 <? 1)%float = true.

(** Pure exploration, in the words of the spec: one real draw, then one
    integer draw over the actions, and no look at the table. *)
Definition explore_action : M E G nat :=
  _ <- call_uniform 0 1;;
  call_randint 0 action_space_n.

(** The training loop with the choice of the action replaced by pure
    exploration. *)
Fixpoint explore_only_loop (self : QLearning) (n : nat) (st : FitState)
    : M E G FitState :=
  match n with
  | O => ret st
  | S n' =>
      st' <- (action <- explore_action;; step_and_update self st action);;
      explore_only_loop self n' st'
  end.

(** A computation that only adds calls satisfying [P] to the trace and never
    reports an exhausted fuel (it has no unbounded loop). *)
Definition traces {A} (P : Event -> Prop) (c : M E G A) : Prop :=
  forall w,
    (c w).1 <> Timeout /\
    exists t, w_trace (c w).2 = t ++ w_trace w /\ Forall P t.

(** An integer draw, if the call is one, is over the whole action range. *)
Definition draws_over_actions (ev : Event) : Prop :=
  match ev with
  | EvRandint low high => low = 0 /\ high = action_space_n
  | _ => True
  end.

(** The step results an episode yields when [actions] are applied in turn
    from the environment state [e]. *)
Fixpoint env_replay (e : E) (actions : list nat) : list StepData :=
  match actions with
  | [] => []
  | a :: rest => (env_step a e).1 :: env_replay (env_step a e).2 rest
  end.

(** A step result that ends the episode. *)
Definition episode_over (sd : StepData) : bool :=
  sd_terminated sd || sd_truncated sd.

(** A table [predict] can run on: every row is non-empty and free of NaN. *)
Definition table_ok (table : QTable) : Prop :=
  Forall (fun row => row <> [] /\ Forall (fun x => is_nan x = false) row) table.

(** A computation that does not touch the environment. *)
Definition quiet {A} (c : M E G A) : Prop :=
  forall w,
    w_env (c w).2 = w_env w /\
    exists t, w_trace (c w).2 = t ++ w_trace w /\ step_calls t = 0.

(** [fit] up to the end of its [i]-th training iteration. *)
Definition fit_prefix (self : QLearning) (num_bins : Z) (i : nat)
    : M E G FitState :=
  set_sav (np_zeros2 observation_space_n action_space_n);;;
  _ <- lift (np_zeros1 num_bins);;
  current_state <- call_reset;;
  fit_loop self i (mkFit current_state []).

End Vocabulary.

(** * Properties *)

(** ** Reasoning about the monad *)

Section MonadFacts.
Context {E G : Type} `{!Environment E} `{!RandomSource G}.
Implicit Types w : World E G.

Lemma bind_ok_inv {A B} (c : M E G A) (k : A -> M E G B) w b w' :
  bind c k w = (Ok b, w') ->
  exists a w1, c w = (Ok a, w1) /\ k a w1 = (Ok b, w').
Proof.
  unfold bind. destruct (c w) as [[a|e|] w1]; intros Hk; try discriminate.
  by exists a, w1.
Qed.

Lemma bind_ok {A B} (c : M E G A) (k : A -> M E G B) w a w1 :
  c w = (Ok a, w1) -> bind c k w = k a w1.
Proof. unfold bind. by intros ->. Qed.

Lemma bind_assoc {A B C} (c : M E G A) (k : A -> M E G B) (h : B -> M E G C) w :
  bind (bind c k) h w = bind c (fun a => bind (k a) h) w.
Proof. unfold bind. destruct (c w) as [[a|e|] w1]; reflexivity. Qed.

Lemma bind_lift_ok {A B} (a : A) (k : A -> M E G B) w :
  bind (lift (Ok a)) k w = k a w.
Proof. reflexivity. Qed.

Lemma bind_head {A B} (c c' : M E G A) (k : A -> M E G B) w :
  c w = c' w -> bind c k w = bind c' k w.
Proof. unfold bind. by intros ->. Qed.

Lemma bind_ext {A B} (c : M E G A) (k k' : A -> M E G B) w :
  (forall a w1, k a w1 = k' a w1) -> bind c k w = bind c k' w.
Proof. intros Hk. unfold bind. destruct (c w) as [[a|e|] w1]; auto. Qed.

Lemma sav_stable_bind {A B} (c : M E G A) (k : A -> M E G B) :
  sav_stable c -> (forall a, sav_stable (k a)) -> sav_stable (bind c k).
Proof.
  intros Hc Hk w. unfold bind. specialize (Hc w).
  destruct (c w) as [[a|e|] w1]; simpl in *; try done.
  by rewrite Hk.
Qed.

Lemma sav_stable_ret {A} (a : A) : sav_stable (ret (E := E) (G := G) a).
Proof. done. Qed.

Lemma sav_stable_raise {A} e : sav_stable (raise (E := E) (G := G) (A := A) e).
Proof. done. Qed.

Lemma sav_stable_lift {A} (r : result A) : sav_stable (lift (E := E) (G := G) r).
Proof. done. Qed.

Lemma sav_stable_reset : sav_stable (call_reset (E := E) (G := G)).
Proof. intros w. unfold call_reset. by destruct (env_reset _). Qed.

Lemma sav_stable_step a : sav_stable (call_step (E := E) (G := G) a).
Proof. intros w. unfold call_step. by destruct (env_step _ _). Qed.

Lemma sav_stable_uniform lo hi : sav_stable (call_uniform (E := E) (G := G) lo hi).
Proof. intros w. unfold call_uniform. by destruct (rand_uniform _ _ _). Qed.

Lemma sav_stable_randint lo hi : sav_stable (call_randint (E := E) (G := G) lo hi).
Proof. intros w. unfold call_randint. by destruct (rand_randint _ _ _). Qed.

Lemma sav_stable_read_row s : sav_stable (read_row (E := E) (G := G) s).
Proof. intros w. unfold read_row. by destruct (w_sav w !! s). Qed.

Create HintDb stable.

#[local] Hint Resolve sav_stable_ret sav_stable_raise sav_stable_lift
  sav_stable_reset sav_stable_step sav_stable_uniform sav_stable_randint
  sav_stable_read_row : stable.

Lemma sav_stable_argmax row : sav_stable (argmax_tiebreak (E := E) (G := G) row).
Proof.
  unfold argmax_tiebreak.
  apply sav_stable_bind; [auto with stable|]. intros m.
  apply sav_stable_bind; [auto with stable|]. intros k.
  destruct (_ !! k); auto with stable.
Qed.

Lemma sav_stable_select self s : sav_stable (select_action (E := E) (G := G) self s).
Proof.
  unfold select_action.
  apply sav_stable_bind; [auto with stable|]. intros u.
  destruct (u <? _)%float; [auto with stable|].
  apply sav_stable_bind; [auto with stable|]. intros row.
  apply sav_stable_argmax.
Qed.

Lemma sav_stable_predict_while fuel :
  forall term trunc s states actions rewards,
    sav_stable (predict_while (E := E) (G := G) fuel term trunc s states actions rewards).
Proof.
  induction fuel as [|fuel IH]; intros term trunc s states actions rewards;
    simpl; destruct (negb (term || trunc)); try done.
  apply sav_stable_bind; [auto with stable|]. intros row.
  apply sav_stable_bind; [apply sav_stable_argmax|]. intros a.
  apply sav_stable_bind; [auto with stable|]. intros sd.
  apply IH.
Qed.

End MonadFacts.

(** ** predict leaves the value table alone *)

(** C6: [predict] never mutates the table it is given: whatever the
    environment, the random source, the table and the outcome (a returned
    trajectory, an exception, or a loop still running when the fuel ends),
    the array held by the world after the call is the one held before. *)
Theorem predict_never_mutates_table {E G : Type} `{!Environment E}
    `{!RandomSource G} (fuel : nat) (w : World E G) :
  w_sav (predict fuel w).2 = w_sav w.
Proof.
  revert w. change (sav_stable (predict (E := E) (G := G) fuel)). unfold predict.
  apply sav_stable_bind; [apply sav_stable_reset|]. intros s.
  apply sav_stable_predict_while.
Qed.

(** ** One training step *)

Section FitStep.
Context {E G : Type} `{!Environment E} `{!RandomSource G}.
Implicit Types w : World E G.

Lemma entry_zeros n_states n_actions s a :
  s < n_states -> a < n_actions ->
  entry (np_zeros2 n_states n_actions) s a = Some 0%float.
Proof.
  intros Hs Ha. unfold entry, np_zeros2.
  rewrite lookup_replicate_2 by done. by apply lookup_replicate_2.
Qed.

Lemma entry_insert_eq (table : QTable) s a row q v :
  table !! s = Some row -> row !! a = Some q ->
  entry (<[s := <[a := v]> row]> table) s a = Some v.
Proof.
  intros Hs Ha. unfold entry.
  rewrite list_lookup_insert_eq by (by eapply lookup_lt_Some).
  apply list_lookup_insert_eq. by eapply lookup_lt_Some.
Qed.

Lemma entry_insert_ne (table : QTable) s a row v s' a' :
  table !! s = Some row -> (s', a') <> (s, a) ->
  entry (<[s := <[a := v]> row]> table) s' a' = entry table s' a'.
Proof.
  intros Hs Hne. unfold entry.
  destruct (decide (s = s')) as [<-|Hss].
  - rewrite list_lookup_insert_eq by (by eapply lookup_lt_Some).
    rewrite Hs. apply list_lookup_insert_ne. congruence.
  - by rewrite list_lookup_insert_ne.
Qed.

Lemma call_step_eq a w :
  call_step a w =
    (Ok (env_step a (w_env w)).1,
     mkWorld (env_step a (w_env w)).2 (w_rng w) (w_sav w) (EvStep a :: w_trace w)).
Proof. unfold call_step, log. by destruct (env_step a (w_env w)). Qed.

Lemma call_reset_eq w :
  call_reset w =
    (Ok (env_reset (w_env w)).1,
     mkWorld (env_reset (w_env w)).2 (w_rng w) (w_sav w) (EvReset :: w_trace w)).
Proof. unfold call_reset, log. by destruct (env_reset (w_env w)). Qed.

Lemma call_uniform_eq lo hi w :
  call_uniform lo hi w =
    (Ok (rand_uniform lo hi (w_rng w)).1,
     mkWorld (w_env w) (rand_uniform lo hi (w_rng w)).2 (w_sav w)
       (EvUniform lo hi :: w_trace w)).
Proof. unfold call_uniform, log. by destruct (rand_uniform lo hi (w_rng w)). Qed.

Lemma call_randint_eq lo hi w :
  call_randint lo hi w =
    (match (rand_randint lo hi (w_rng w)).1 with
     | inr k => Ok k
     | inl e => Raise e
     end,
     mkWorld (w_env w) (rand_randint lo hi (w_rng w)).2 (w_sav w)
       (EvRandint lo hi :: w_trace w)).
Proof. unfold call_randint, log. by destruct (rand_randint lo hi (w_rng w)). Qed.

Lemma read_row_eq s w row :
  w_sav w !! s = Some row -> read_row s w = (Ok row, w).
Proof. unfold read_row. by intros ->. Qed.

Lemma update_entry_eq s a f w row q :
  w_sav w !! s = Some row -> row !! a = Some q ->
  update_entry s a f w =
    (Ok tt, mkWorld (w_env w) (w_rng w) (<[s := <[a := f q]> row]> (w_sav w))
              (w_trace w)).
Proof. unfold update_entry. by intros -> ->. Qed.

(** What [step_and_update] does when the indices it uses are in range. *)
Lemma step_and_update_ok self st a w sd e2 q next_row m :
  env_step a (w_env w) = (sd, e2) ->
  entry (w_sav w) (current_state st) a = Some q ->
  w_sav w !! sd_state sd = Some next_row ->
  np_max next_row = Ok m ->
  exists w',
    step_and_update self st a w =
      (Ok (mkFit (if sd_truncated sd || sd_terminated sd
                  then (env_reset e2).1 else sd_state sd)
                 (all_rewards st ++ [sd_reward sd])), w') /\
    entry (w_sav w') (current_state st) a =
      Some (td_update self (sd_reward sd) m q) /\
    (forall s' a', (s', a') <> (current_state st, a) ->
       entry (w_sav w') s' a' = entry (w_sav w) s' a') /\
    w_trace w' =
      (if sd_truncated sd || sd_terminated sd then [EvReset] else [])
        ++ EvStep a :: w_trace w /\
    w_env w' =
      (if sd_truncated sd || sd_terminated sd then (env_reset e2).2 else e2) /\
    w_rng w' = w_rng w.
Proof.
  intros Hstep Hq Hrow Hmax. unfold entry in Hq.
  destruct (w_sav w !! current_state st) as [row|] eqn:Hs; [|done].
  unfold step_and_update.
  rewrite (bind_ok _ _ _ _ _ (call_step_eq a w)), Hstep. simpl.
  destruct (sd_truncated sd || sd_terminated sd).
  - rewrite (bind_ok _ _ _ _ _ (call_reset_eq _)). simpl.
    erewrite bind_ok by (by apply read_row_eq).
    unfold bind at 1, lift. rewrite Hmax.
    erewrite bind_ok by (by eapply update_entry_eq).
    eexists; split; [reflexivity|]; simpl; split_and!; try done;
      [by eapply entry_insert_eq | by intros; eapply entry_insert_ne].
  - unfold bind at 1, ret.
    erewrite bind_ok by (by apply read_row_eq).
    unfold bind at 1, lift. rewrite Hmax.
    erewrite bind_ok by (by eapply update_entry_eq).
    eexists; split; [reflexivity|]; simpl; split_and!; try done;
      [by eapply entry_insert_eq | by intros; eapply entry_insert_ne].
Qed.

(** Whatever happens in [step_and_update], only the entry of the pre-step
    state and the action can change. *)
Lemma step_and_update_frame self st a w s' a' :
  (s', a') <> (current_state st, a) ->
  entry (w_sav (step_and_update self st a w).2) s' a' = entry (w_sav w) s' a'.
Proof.
  intros Hne. unfold step_and_update, bind, call_step.
  destruct (env_step a (w_env w)) as [sd e2].
  destruct (sd_truncated sd || sd_terminated sd);
    unfold call_reset, ret, read_row, lift, update_entry; simpl;
    [destruct (env_reset e2) as [s0 e3]; simpl|];
    (destruct (w_sav w !! sd_state sd) as [next_row|]; simpl; [|done];
     destruct (np_max next_row) as [m|e|]; simpl; try done;
     destruct (w_sav w !! current_state st) as [row|] eqn:Hs; simpl; [|done];
     destruct (row !! a) as [q|]; simpl; [|done];
     by eapply entry_insert_ne).
Qed.

Lemma fit_step_frame self st w s' a' :
  (forall a w1, select_action self (current_state st) w = (Ok a, w1) ->
                (s', a') <> (current_state st, a)) ->
  entry (w_sav (fit_step self st w).2) s' a' = entry (w_sav w) s' a'.
Proof.
  intros Hne. unfold fit_step, bind.
  pose proof (sav_stable_select self (current_state st) w) as Hsel.
  destruct (select_action self (current_state st) w) as [[a|e|] w1];
    simpl in *; try (by rewrite Hsel).
  rewrite step_and_update_frame by eauto. by rewrite Hsel.
Qed.

Lemma fit_loop_snoc self n st w :
  fit_loop self (S n) st w = bind (fit_loop self n st) (fit_step self) w.
Proof.
  revert st w. induction n as [|n IH]; intros st w.
  - simpl. unfold bind, ret. by destruct (fit_step self st w) as [[?|?|] ?].
  - change (fit_loop self (S (S n)) st)
      with (bind (fit_step self st) (fit_loop self (S n))).
    change (fit_loop self (S n) st) with (bind (fit_step self st) (fit_loop self n)).
    rewrite bind_assoc. apply bind_ext. intros st1 w1. apply IH.
Qed.

Lemma fit_prefix_snoc self num_bins i w :
  fit_prefix self num_bins (S i) w
  = bind (fit_prefix self num_bins i) (fit_step self) w.
Proof.
  unfold fit_prefix. rewrite !bind_assoc. apply bind_ext. intros _ w1.
  rewrite bind_assoc. apply bind_ext. intros _ w2.
  rewrite bind_assoc. apply bind_ext. intros s w3.
  apply fit_loop_snoc.
Qed.

Lemma fit_prefix_0_sav self num_bins w st w' :
  fit_prefix self num_bins 0 w = (Ok st, w') ->
  w_sav w' = np_zeros2 observation_space_n action_space_n.
Proof.
  unfold fit_prefix, bind, set_sav, lift. simpl.
  destruct (np_zeros1 num_bins); try discriminate.
  rewrite call_reset_eq. unfold ret. by intros [= <- <-].
Qed.

(** [fit] is its prefix followed by the binning of the reward trace. *)
Lemma fit_unfold self steps num_bins w :
  fit self steps num_bins w =
  bind (fit_prefix self num_bins (Z.to_nat steps))
    (fun st =>
       bin_size <- lift (ceil_div steps num_bins);;
       state_action_values <- get_sav;;
       ret (state_action_values,
            average_bins (all_rewards st) num_bins bin_size
              (replicate (Z.to_nat num_bins) 0%float))) w.
Proof.
  unfold fit, fit_prefix. rewrite !bind_assoc. apply bind_ext. intros _ w1.
  rewrite bind_assoc. unfold np_zeros1. destruct (num_bins <? 0)%Z; [done|].
  rewrite !bind_lift_ok. by rewrite bind_assoc.
Qed.

End FitStep.

(** ** The frame of a training run *)

(** C10: a training step changes at most the entry of the pre-step state and
    the action it chose, whatever its outcome; so an entry in range that is
    never the (pre-step state, chosen action) of an iteration still holds
    its initial 0 in the table [fit] returns. *)
Theorem fit_changes_only_visited_entries {E G : Type} `{!Environment E}
    `{!RandomSource G} (self : QLearning) :
  (forall (st : FitState) (w : World E G) (s a : nat),
     (forall a_i w1, select_action self (current_state st) w = (Ok a_i, w1) ->
                     (s, a) <> (current_state st, a_i)) ->
     entry (w_sav (fit_step self st w).2) s a = entry (w_sav w) s a) /\
  (forall (steps num_bins : Z) (w w' : World E G) (table : QTable)
          (avg_rewards : list float) (s a : nat),
     fit self steps num_bins w = (Ok (table, avg_rewards), w') ->
     s < observation_space_n -> a < action_space_n ->
     (forall i st_i w_i a_i w1,
        i < Z.to_nat steps ->
        fit_prefix self num_bins i w = (Ok st_i, w_i) ->
        select_action self (current_state st_i) w_i = (Ok a_i, w1) ->
        (s, a) <> (current_state st_i, a_i)) ->
     entry table s a = Some 0%float).
Proof.
  split; [intros st w s a; apply fit_step_frame|].
  intros steps num_bins w w' table avg_rewards s a Hfit Hs Ha Hnever.
  rewrite fit_unfold in Hfit.
  apply bind_ok_inv in Hfit as (st_n & w_n & Hprefix & Hrest).
  assert (Hinv : forall i st_i w_i,
             i <= Z.to_nat steps ->
             fit_prefix self num_bins i w = (Ok st_i, w_i) ->
             entry (w_sav w_i) s a = Some 0%float).
  { induction i as [|i IH]; intros st_i w_i Hi Hrun.
    - rewrite (fit_prefix_0_sav _ _ _ _ _ Hrun). by apply entry_zeros.
    - rewrite fit_prefix_snoc in Hrun.
      apply bind_ok_inv in Hrun as (st0 & w0 & Hprev & Hstep).
      pose proof (fit_step_frame self st0 w0 s a) as Hframe.
      rewrite Hstep in Hframe. simpl in Hframe. rewrite Hframe.
      + eapply IH; [lia | done].
      + intros a_i w1 Hsel. eapply Hnever; [|done..]. lia. }
  apply bind_ok_inv in Hrest as (bin_size & w2 & Hceil & Hrest).
  apply bind_ok_inv in Hrest as (tbl & w3 & Hget & Hrest).
  injection Hrest as <- _ _. injection Hget as <- _.
  unfold lift in Hceil. injection Hceil as _ <-.
  by eapply Hinv.
Qed.

(** On the bandit, two greedy steps only ever choose action 0 in state 0
    (the first by the draw, the second as the single maximum): the entry of
    state 1 and action 1 is untouched by the first step and still 0 in the
    table returned after both. *)
Lemma fit_changes_only_visited_entries_witness :
  entry (w_sav (@fit_step unit nat BanditEnv CounterRng (mkQLearning 0 1 0)
                  (mkFit 0 []) (world0 tt 0 (np_zeros2 2 2))).2) 1 1
    = entry (np_zeros2 2 2) 1 1 /\
  (@fit unit nat BanditEnv CounterRng (mkQLearning 0 1 0) 2 1 (world0 tt 0 [])).1
    = Ok ([[1; 0]; [0; 0]]%float, [1%float]) /\
  entry ([[1; 0]; [0; 0]]%float) 1 1 = Some 0%float.
Proof.
  pose proof (@fit_changes_only_visited_entries unit nat BanditEnv CounterRng
                (mkQLearning 0 1 0)) as [Hstep Hrun].
  split_and!.
  - apply Hstep. intros a_i w1 Hsel. vm_compute in Hsel.
    injection Hsel as <- _. discriminate.
  - reflexivity.
  - eapply (Hrun 2%Z 1%Z (world0 tt 0 [])); [vm_compute; reflexivity | simpl; lia..|].
    intros i st_i w_i a_i w1 Hi Hpre Hsel.
    destruct i as [|[|i]]; [| |simpl in Hi; lia];
      vm_compute in Hpre; injection Hpre as <- <-;
      vm_compute in Hsel; injection Hsel as <- _; discriminate.
Defined.

(** ** The calls a computation adds to the trace *)

Section Traces.
Context {E G : Type} `{!Environment E} `{!RandomSource G}.
Implicit Types w : World E G.

Lemma traces_bind {A B} P (c : M E G A) (k : A -> M E G B) :
  traces P c -> (forall a, traces P (k a)) -> traces P (bind c k).
Proof.
  intros Hc Hk w. unfold bind. destruct (Hc w) as [Hnt (t & Ht & HP)].
  destruct (c w) as [[a|e|] w1]; simpl in *; try (split; [done|by exists t]).
  destruct (Hk a w1) as [Hnt' (t' & Ht' & HP')]. split; [done|].
  exists (t' ++ t). rewrite Ht', Ht, app_assoc. split; [done|].
  by apply Forall_app.
Qed.

Lemma traces_ret {A} P (a : A) : traces P (ret (E := E) (G := G) a).
Proof. intros w. split; [done|by exists []]. Qed.

Lemma traces_raise {A} P e : traces P (raise (E := E) (G := G) (A := A) e).
Proof. intros w. split; [done|by exists []]. Qed.

Lemma traces_lift {A} P (r : result A) :
  r <> Timeout -> traces P (lift (E := E) (G := G) r).
Proof. intros Hr w. split; [done|by exists []]. Qed.

Lemma np_max_no_timeout row : np_max row <> Timeout.
Proof. by destruct row. Qed.

Lemma traces_reset (P : Event -> Prop) :
  P EvReset -> traces P (call_reset (E := E) (G := G)).
Proof.
  intros HP w. rewrite call_reset_eq. split; [done|].
  exists [EvReset]. split; [done|by constructor].
Qed.

Lemma traces_step (P : Event -> Prop) a :
  P (EvStep a) -> traces P (call_step (E := E) (G := G) a).
Proof.
  intros HP w. rewrite call_step_eq. split; [done|].
  exists [EvStep a]. split; [done|by constructor].
Qed.

Lemma traces_uniform (P : Event -> Prop) lo hi :
  P (EvUniform lo hi) -> traces P (call_uniform (E := E) (G := G) lo hi).
Proof.
  intros HP w. rewrite call_uniform_eq. split; [done|].
  exists [EvUniform lo hi]. split; [done|by constructor].
Qed.

Lemma traces_randint (P : Event -> Prop) lo hi :
  P (EvRandint lo hi) -> traces P (call_randint (E := E) (G := G) lo hi).
Proof.
  intros HP w. rewrite call_randint_eq. split.
  - simpl. by destruct (rand_randint lo hi (w_rng w)).1.
  - exists [EvRandint lo hi]. split; [done|by constructor].
Qed.

Lemma traces_read_row P s : traces P (read_row (E := E) (G := G) s).
Proof.
  intros w. unfold read_row.
  destruct (w_sav w !! s); (split; [done|by exists []]).
Qed.

Lemma traces_update_entry P s a f :
  traces P (update_entry (E := E) (G := G) s a f).
Proof.
  intros w. unfold update_entry.
  destruct (w_sav w !! s) as [row|]; [destruct (row !! a)|];
    (split; [done|by exists []]).
Qed.

Lemma traces_step_and_update (P : Event -> Prop) self st a :
  P EvReset -> P (EvStep a) ->
  traces P (step_and_update (E := E) (G := G) self st a).
Proof.
  intros Hreset Hstep. unfold step_and_update.
  apply traces_bind; [by apply traces_step|]. intros sd.
  apply traces_bind;
    [destruct (_ || _); [by apply traces_reset | apply traces_ret]|]. intros s0.
  apply traces_bind; [apply traces_read_row|]. intros row.
  apply traces_bind; [apply traces_lift, np_max_no_timeout|]. intros m.
  apply traces_bind; [apply traces_update_entry|]. intros _.
  apply traces_ret.
Qed.

Lemma traces_select self s :
  traces (fun _ => True) (select_action (E := E) (G := G) self s).
Proof.
  unfold select_action.
  apply traces_bind; [by apply traces_uniform|]. intros u.
  destruct (u <? _)%float; [by apply traces_randint|].
  apply traces_bind; [apply traces_read_row|]. intros row.
  unfold argmax_tiebreak.
  apply traces_bind; [apply traces_lift, np_max_no_timeout|]. intros m.
  apply traces_bind; [by apply traces_randint|]. intros k.
  destruct (_ !! k); [apply traces_ret | apply traces_raise].
Qed.

Lemma traces_fit_loop self n :
  forall st, traces (fun _ => True) (fit_loop (E := E) (G := G) self n st).
Proof.
  induction n as [|n IH]; intros st; simpl; [apply traces_ret|].
  apply traces_bind; [|done].
  apply traces_bind; [apply traces_select|]. intros a.
  by apply traces_step_and_update.
Qed.

Lemma traces_explore_only_loop self n :
  forall st,
    traces draws_over_actions (explore_only_loop (E := E) (G := G) self n st).
Proof.
  induction n as [|n IH]; intros st; simpl; [apply traces_ret|].
  apply traces_bind; [|done].
  apply traces_bind; [|intros a; by apply traces_step_and_update].
  apply traces_bind; [by apply traces_uniform|]. intros _.
  by apply traces_randint.
Qed.

(** With a negative [num_bins] the allocation of [avg_rewards] fails, before
    the environment is touched. *)
Lemma fit_negative_bins self steps num_bins w :
  (num_bins < 0)%Z ->
  fit self steps num_bins w =
    (Raise ValueError,
     mkWorld (w_env w) (w_rng w)
       (np_zeros2 observation_space_n action_space_n) (w_trace w)).
Proof.
  intros Hneg. unfold fit, bind, set_sav, lift, np_zeros1. simpl.
  by rewrite (proj2 (Z.ltb_lt _ _) Hneg).
Qed.

(** [fit] once the tables are allocated and the environment is reset. *)
Lemma fit_after_reset self steps num_bins w :
  (0 <= num_bins)%Z ->
  fit self steps num_bins w =
    bind (fit_loop self (Z.to_nat steps) (mkFit (env_reset (w_env w)).1 []))
      (fun st =>
         bin_size <- lift (ceil_div steps num_bins);;
         state_action_values <- get_sav;;
         ret (state_action_values,
              average_bins (all_rewards st) num_bins bin_size
                (replicate (Z.to_nat num_bins) 0%float)))
      (mkWorld (env_reset (w_env w)).2 (w_rng w)
         (np_zeros2 observation_space_n action_space_n)
         (EvReset :: w_trace w)).
Proof.
  intros Hbins. unfold fit.
  erewrite bind_ok by reflexivity.
  erewrite bind_ok
    by (unfold lift, np_zeros1; rewrite (proj2 (Z.ltb_ge _ _) Hbins); reflexivity).
  by rewrite (bind_ok _ _ _ _ _ (call_reset_eq _)).
Qed.

(** With [num_bins = 0] the division of line 141 fails, after the reset and
    the whole training loop. *)
Lemma fit_zero_bins self steps w :
  exists e t,
    (fit self steps 0 w).1 = Raise e /\
    w_trace (fit self steps 0 w).2 = t ++ EvReset :: w_trace w.
Proof.
  rewrite fit_after_reset by done. set (w1 := mkWorld _ _ _ _).
  destruct (traces_fit_loop self (Z.to_nat steps)
              (mkFit (env_reset (w_env w)).1 []) w1) as [Hnt (t & Ht & _)].
  unfold bind, lift, ceil_div. simpl.
  destruct (fit_loop _ _ _ w1) as [[st|e|] w2]; simpl in *; [| |done].
  - by exists ZeroDivisionError, t.
  - by exists e, t.
Qed.

(** With no step to take and at least one bin, nothing fails: the
    environment is reset once and the zero table is returned. *)
Lemma fit_no_steps self steps num_bins w :
  (steps <= 0)%Z -> (1 <= num_bins)%Z ->
  fit self steps num_bins w =
    (Ok (np_zeros2 observation_space_n action_space_n,
         average_bins [] num_bins (- (- steps / num_bins))
           (replicate (Z.to_nat num_bins) 0%float)),
     mkWorld (env_reset (w_env w)).2 (w_rng w)
       (np_zeros2 observation_space_n action_space_n)
       (EvReset :: w_trace w)).
Proof.
  intros Hsteps Hbins. rewrite fit_after_reset by lia.
  replace (Z.to_nat steps) with 0%nat by lia. simpl.
  unfold bind at 1, ret at 1, bind at 1, lift, ceil_div.
  by rewrite (proj2 (Z.eqb_neq _ _)) by lia.
Qed.

End Traces.

(** ** The training loop under pure exploration *)

Section Explore.
Context {E G : Type} `{!Environment E} `{!RandomSource G}.
Implicit Types w : World E G.

Lemma select_action_explores self s w :
  epsilon self = 1%float -> uniform_below_one ->
  select_action self s w = explore_action w.
Proof.
  intros Heps Hunif. unfold select_action, explore_action.
  rewrite !(bind_ok _ _ _ _ _ (call_uniform_eq _ _ _)).
  by rewrite Heps, Hunif.
Qed.

Lemma fit_loop_explores self n st w :
  epsilon self = 1%float -> uniform_below_one ->
  fit_loop self n st w = explore_only_loop self n st w.
Proof.
  intros Heps Hunif. revert st w.
  induction n as [|n IH]; intros st w; [done|]. simpl.
  unfold fit_step. rewrite !bind_assoc.
  rewrite (bind_head _ _ _ _ (select_action_explores self _ w Heps Hunif)).
  apply bind_ext. intros a w1. by apply bind_ext.
Qed.

End Explore.

(** ** Facts about binary64 *)

Section FloatFacts.

Lemma SFleb_refl x : x <> S754_nan -> SFleb x x = true.
Proof.
  unfold SFleb. destruct x as [s|s| |s m e]; simpl; try done; intros _.
  - by destruct s.
  - rewrite Z.compare_refl, Pos.compare_cont_refl. by destruct s.
Qed.

Ltac cmp_cases :=
  repeat match goal with
    | |- context [Z.compare ?a ?b] => destruct (Z.compare_spec a b); subst
    | H : context [Z.compare ?a ?b] |- _ => destruct (Z.compare_spec a b); subst
    | |- context [Pos.compare ?a ?b] => destruct (Pos.compare_spec a b); subst
    | H : context [Pos.compare ?a ?b] |- _ => destruct (Pos.compare_spec a b); subst
    end.

Lemma SFleb_total x y :
  x <> S754_nan -> y <> S754_nan -> SFleb x y = true \/ SFleb y x = true.
Proof.
  unfold SFleb.
  destruct x as [[]|[]| |[] m1 e1], y as [[]|[]| |[] m2 e2]; simpl;
    try done; intros _ _; auto;
    change (Pos.compare_cont Eq ?a ?b) with (Pos.compare a b);
    cmp_cases; simpl; auto; lia.
Qed.

Lemma SFleb_trans x y z :
  SFleb x y = true -> SFleb y z = true -> SFleb x z = true.
Proof.
  unfold SFleb.
  destruct x as [[]|[]| |[] m1 e1], y as [[]|[]| |[] m2 e2],
    z as [[]|[]| |[] m3 e3]; simpl; try done;
    change (Pos.compare_cont Eq ?a ?b) with (Pos.compare a b);
    intros H1 H2; cmp_cases; simpl in *; try done; lia.
Qed.

Lemma is_nan_spec x : is_nan x = false <-> Prim2SF x <> S754_nan.
Proof.
  unfold is_nan. rewrite FloatAxioms.eqb_spec. unfold SFeqb.
  destruct (Prim2SF x) as [[]|[]| |[] m e]; simpl; try (split; done);
    rewrite ?Z.compare_refl, ?Pos.compare_cont_refl; simpl; split; done.
Qed.

Lemma float_leb_refl x : is_nan x = false -> (x <=? x)%float = true.
Proof. rewrite is_nan_spec, FloatAxioms.leb_spec. apply SFleb_refl. Qed.

Lemma float_leb_total x y :
  is_nan x = false -> is_nan y = false ->
  (x <=? y)%float = true \/ (y <=? x)%float = true.
Proof. rewrite !is_nan_spec, !FloatAxioms.leb_spec. apply SFleb_total. Qed.

Lemma float_leb_trans x y z :
  (x <=? y)%float = true -> (y <=? z)%float = true -> (x <=? z)%float = true.
Proof. rewrite !FloatAxioms.leb_spec. apply SFleb_trans. Qed.

Lemma float_eqb_refl x : is_nan x = false -> (x =? x)%float = true.
Proof. unfold is_nan. by destruct (x =? x)%float. Qed.

(** A finite number is a zero or a bounded mantissa and exponent. *)
Lemma finite_SF x :
  is_finite x = true ->
  (exists s, Prim2SF x = S754_zero s) \/
  (exists s m e, Prim2SF x = S754_finite s m e /\ bounded prec emax m e = true).
Proof.
  unfold is_finite, is_nan, is_infinity.
  rewrite !FloatAxioms.eqb_spec, abs_spec.
  pose proof (Prim2SF_valid x) as Hv.
  destruct (Prim2SF x) as [s|s| |s m e]; simpl in *; try done; eauto.
  - by destruct s.
  - right. by exists s, m, e.
Qed.

Lemma digits2_shift52 (m : positive) :
  Zpos (digits2_pos (4503599627370496 * m)) = (Zpos (digits2_pos m) + 52)%Z.
Proof.
  change (4503599627370496 * m)%positive with (Pos.iter xO m 52).
  cbn [Pos.iter digits2_pos]. simpl digits2_pos. rewrite !Pos2Z.inj_succ. lia.
Qed.

(** Multiplying by 1.0 (mantissa 2^52, exponent -52) rounds to the operand. *)
Lemma mul_one_exact s m e :
  bounded prec emax m e = true ->
  SFmul prec emax (S754_finite false 4503599627370496 (-52)) (S754_finite s m e)
  = S754_finite s m e.
Proof.
  unfold bounded, canonical_mantissa. intros [Hcan Hle]%andb_prop.
  apply Z.eqb_eq in Hcan.
  unfold SFmul, binary_round_aux, shr_fexp. cbn [xorb].
  unfold Zdigits2 at 1. rewrite digits2_shift52.
  replace (Z.pos (digits2_pos m) + 52 + (-52 + e))%Z
    with (Z.pos (digits2_pos m) + e)%Z by lia.
  rewrite Hcan.
  replace (e - (-52 + e))%Z with 52%Z by lia.
  unfold shr at 1.
  change (4503599627370496 * m)%positive with (Pos.iter xO m 52).
  cbn [Pos.iter shr_record_of_loc iter_pos shr_1 orb].
  simpl.
  replace (-52 + e + 52)%Z with e by lia.
  rewrite Hcan, Z.sub_diag. simpl. by rewrite Hle.
Qed.

Lemma add_opp_exact s m e :
  SFadd prec emax (S754_finite s m e) (S754_finite (negb s) m e) = S754_zero false.
Proof.
  unfold SFadd. rewrite Z.min_id. unfold shl_align. rewrite Z.sub_diag. simpl.
  destruct s; simpl; by rewrite ?Z.add_opp_diag_l, ?Z.add_opp_diag_r.
Qed.

(** With alpha = 1, gamma = 0 and a zero reward the update is exactly +0,
    as long as the old entry and the bootstrap maximum are finite. *)
Lemma td_update_zero_reward self r m q :
  alpha self = 1%float -> gamma self = 0%float ->
  (r =? 0)%float = true -> is_finite m = true -> is_finite q = true ->
  td_update self r m q = 0%float.
Proof.
  intros Ha Hg Hr Hm Hq. unfold td_update. rewrite Ha, Hg. apply Prim2SF_inj.
  assert (Hr' : exists sr, Prim2SF r = S754_zero sr).
  { rewrite FloatAxioms.eqb_spec in Hr. unfold SFeqb in Hr.
    destruct (Prim2SF r) as [s|[]| |[] ? ?]; simpl in *; try done. by exists s. }
  destruct Hr' as [sr Hsr].
  rewrite add_spec, mul_spec, sub_spec, add_spec, mul_spec, Hsr.
  change (Prim2SF 0) with (S754_zero false).
  change (Prim2SF 1) with (S754_finite false 4503599627370496 (-52)).
  unfold SF64mul, SF64add, SF64sub.
  assert (Hsub : forall sq mq eq x,
            x = SFmul prec emax (S754_zero false) (Prim2SF m) ->
            SFsub prec emax (SFadd prec emax (S754_zero sr) x)
              (S754_finite sq mq eq) = S754_finite (negb sq) mq eq).
  { intros sq mq eq x ->.
    destruct (finite_SF m Hm) as [[sm ->]|(sm & mm & em & -> & _)];
      by destruct sr, sm. }
  destruct (finite_SF q Hq) as [[sq ->]|(sq & mq & eq & -> & Hb)].
  - destruct (finite_SF m Hm) as [[sm ->]|(sm & mm & em & -> & _)];
      by destruct sr, sm, sq.
  - rewrite (Hsub sq mq eq _ eq_refl), mul_one_exact by done.
    apply add_opp_exact.
Qed.

End FloatFacts.

(** ** The tie-breaking argmax *)

Section Argmax.

Lemma np_maximum_cases x y : np_maximum x y = x \/ np_maximum x y = y.
Proof. unfold np_maximum. destruct (_ || _); auto. Qed.

Lemma np_maximum_upper x y :
  is_nan x = false -> is_nan y = false ->
  (x <=? np_maximum x y)%float = true /\ (y <=? np_maximum x y)%float = true.
Proof.
  intros Hx Hy. unfold np_maximum. rewrite Hx, orb_false_r.
  destruct (y <=? x)%float eqn:Hyx.
  - split; [by apply float_leb_refl | done].
  - split; [|by apply float_leb_refl].
    destruct (float_leb_total x y Hx Hy); congruence.
Qed.

Lemma fold_maximum_in xs : forall x, fold_left np_maximum xs x ∈ x :: xs.
Proof.
  induction xs as [|y xs IH]; intros x; simpl; [by left|].
  specialize (IH (np_maximum x y)). rewrite !elem_of_cons in *.
  destruct IH as [->|?]; [|by auto].
  destruct (np_maximum_cases x y) as [-> | ->]; auto.
Qed.

Lemma fold_maximum_upper xs :
  forall x,
    is_nan x = false -> Forall (fun y => is_nan y = false) xs ->
    forall y, y ∈ x :: xs -> (y <=? fold_left np_maximum xs x)%float = true.
Proof.
  induction xs as [|z xs IH]; intros x Hx Hxs y Hy; simpl.
  - apply list_elem_of_singleton in Hy as ->. by apply float_leb_refl.
  - apply Forall_cons in Hxs as [Hz Hxs].
    destruct (np_maximum_upper x z Hx Hz) as [Hxm Hzm].
    assert (Hm : is_nan (np_maximum x z) = false)
      by (destruct (np_maximum_cases x z) as [-> | ->]; done).
    specialize (IH (np_maximum x z) Hm Hxs).
    apply elem_of_cons in Hy as [->|Hy].
    + eapply float_leb_trans; [exact Hxm | apply IH; by left].
    + apply elem_of_cons in Hy as [->|Hy].
      * eapply float_leb_trans; [exact Hzm | apply IH; by left].
      * apply IH. by right.
Qed.

Lemma np_max_in row m : np_max row = Ok m -> m ∈ row.
Proof.
  destruct row as [|x xs]; [done|]. simpl. intros [= <-].
  apply fold_maximum_in.
Qed.

Lemma np_max_upper row m :
  Forall (fun y => is_nan y = false) row -> np_max row = Ok m ->
  forall y, y ∈ row -> (y <=? m)%float = true.
Proof.
  destruct row as [|x xs]; [done|]. simpl.
  intros [Hx Hxs]%Forall_cons [= <-]. by apply fold_maximum_upper.
Qed.

Lemma np_max_nonempty row : row <> [] -> exists m, np_max row = Ok m.
Proof. destruct row; [done|]. by eexists. Qed.

Lemma np_where_eq_elem row v : forall i j,
  j ∈ np_where_eq row v i <->
  exists x, i <= j /\ row !! (j - i) = Some x /\ (x =? v)%float = true.
Proof.
  induction row as [|x xs IH]; intros i j; simpl.
  - split; [by intros ?%elem_of_nil | by intros (? & _ & ? & _)].
  - assert (Hrec : j ∈ np_where_eq xs v (S i) <->
              exists y, i < j /\ (x :: xs) !! (j - i) = Some y /\ (y =? v)%float = true).
    { rewrite IH. split; intros (y & Hij & Hy & Hv); exists y.
      - split; [lia|]. by replace (j - i) with (S (j - S i)) by lia.
      - split; [lia|]. by replace (j - i) with (S (j - S i)) in Hy by lia. }
    destruct (x =? v)%float eqn:Hxv; rewrite ?elem_of_cons, Hrec.
    + split.
      * intros [->|(y & Hij & Hy & Hv)].
        -- exists x. by rewrite Nat.sub_diag.
        -- exists y. split; [lia|done].
      * intros (y & Hij & Hy & Hv).
        destruct (decide (j = i)) as [->|Hne]; [by left|].
        right. exists y. split; [lia|done].
    + split.
      * intros (y & Hij & Hy & Hv). exists y. split; [lia|done].
      * intros (y & Hij & Hy & Hv). exists y. split; [|done].
        destruct (decide (j = i)) as [->|Hne]; [|lia].
        rewrite Nat.sub_diag in Hy. simpl in Hy. congruence.
Qed.

Lemma np_where_eq_sorted row v : forall i, StronglySorted lt (np_where_eq row v i).
Proof.
  induction row as [|x xs IH]; intros i; simpl; [constructor|].
  destruct (x =? v)%float; [|done].
  constructor; [done|].
  apply Forall_forall. intros j (? & Hle & _)%np_where_eq_elem. lia.
Qed.

Context {E G : Type} `{!RandomSource G}.
Implicit Types w : World E G.

(** On a non-empty row without NaN, with the contract of [randint], the
    argmax succeeds and returns the position picked by its single draw. *)
Lemma argmax_tiebreak_ok row w :
  row <> [] -> Forall (fun x => is_nan x = false) row -> randint_in_range ->
  exists m k a,
    np_max row = Ok m /\
    (rand_randint 0 (length (np_where_eq row m 0)) (w_rng w)).1 = inr k /\
    np_where_eq row m 0 !! k = Some a /\
    argmax_tiebreak row w =
      (Ok a,
       mkWorld (w_env w)
         (rand_randint 0 (length (np_where_eq row m 0)) (w_rng w)).2
         (w_sav w)
         (EvRandint 0 (length (np_where_eq row m 0)) :: w_trace w)).
Proof.
  intros Hne Hnan Hrand.
  destruct (np_max_nonempty row Hne) as [m Hm].
  pose proof (np_max_in row m Hm) as Hin.
  assert (Hmm : (m =? m)%float = true).
  { apply float_eqb_refl. by eapply Forall_forall in Hnan. }
  assert (Hpos : 0 < length (np_where_eq row m 0)).
  { apply list_elem_of_lookup in Hin as [j Hj].
    assert (Hjin : j ∈ np_where_eq row m 0).
    { apply np_where_eq_elem. exists m. rewrite Nat.sub_0_r. split; [lia|done]. }
    destruct (np_where_eq row m 0); [by apply elem_of_nil in Hjin | simpl; lia]. }
  destruct (Hrand _ (w_rng w) Hpos) as (k & Hk & Hlt).
  destruct (lookup_lt_is_Some_2 _ _ Hlt) as [a Ha].
  exists m, k, a. split_and!; try done.
  unfold argmax_tiebreak. unfold bind at 1, lift. rewrite Hm.
  assert (Hcall : call_randint 0 (length (np_where_eq row m 0)) w
            = (Ok k, mkWorld (w_env w)
                       (rand_randint 0 (length (np_where_eq row m 0)) (w_rng w)).2
                       (w_sav w)
                       (EvRandint 0 (length (np_where_eq row m 0)) :: w_trace w)))
    by (by rewrite call_randint_eq, Hk).
  rewrite (bind_ok _ _ _ _ _ Hcall). simpl. by rewrite Ha.
Qed.

(** When the maximum of the row is NaN no position compares equal to it,
    and the argmax fails whatever the random source answers. *)
Lemma argmax_tiebreak_nan row m w :
  np_max row = Ok m -> is_nan m = true ->
  exists e, (argmax_tiebreak row w).1 = Raise e.
Proof.
  intros Hm Hnan.
  assert (Hnil : np_where_eq row m 0 = []).
  { destruct (np_where_eq row m 0) as [|j l] eqn:Hl; [done|].
    assert (Hj : j ∈ np_where_eq row m 0) by (rewrite Hl; by left).
    apply np_where_eq_elem in Hj as (x & _ & _ & Hx).
    assert ((m =? m)%float = false) as Hmm
      by (unfold is_nan in Hnan; by destruct (m =? m)%float).
    rewrite FloatAxioms.eqb_spec in Hx, Hmm. unfold SFeqb in *.
    destruct (Prim2SF m) as [[]|[]| |[] ? ?]; simpl in Hmm;
      rewrite ?Z.compare_refl, ?Pos.compare_cont_refl in Hmm; try done.
    by destruct (Prim2SF x). }
  unfold argmax_tiebreak. unfold bind at 1, lift. rewrite Hm, Hnil.
  unfold bind. rewrite call_randint_eq. simpl.
  destruct (rand_randint 0 0 (w_rng w)).1 as [e|k]; simpl; eauto.
Qed.

End Argmax.

Lemma counter_randint_in_range : @randint_in_range nat CounterRng.
Proof.
  intros high g Hpos. simpl. unfold counter_randint.
  rewrite (proj2 (Nat.ltb_lt _ _) Hpos). simpl.
  exists (g mod (high - 0)). split; [done|].
  rewrite Nat.sub_0_r. apply Nat.mod_upper_bound. lia.
Qed.

(** C2, for rows without NaN: on every non-empty row whose entries are all
    numbers, the argmax returns a position [a < A] whose value equals the
    maximum [m] of the row (an upper bound of all entries).  It makes exactly
    one call to the random source, an integer draw over the number of
    positions holding the maximum, and returns the [k]-th of these positions
    (listed in increasing order) for the drawn [k]: every tied position is
    returned for exactly one outcome of the draw, the lowest only for
    [k = 0]. *)
Theorem argmax_tiebreak_spec {E G : Type} `{!RandomSource G}
    (row : list float) (w : World E G) :
  row <> [] ->
  Forall (fun x => is_nan x = false) row ->
  randint_in_range ->
  exists (m : float) (indices : list nat) (k a : nat),
    np_max row = Ok m /\
    (forall x, x ∈ row -> (x <=? m)%float = true) /\
    indices = np_where_eq row m 0 /\
    StronglySorted lt indices /\
    (forall j, j ∈ indices <->
               exists x, row !! j = Some x /\ (x =? m)%float = true) /\
    (rand_randint 0 (length indices) (w_rng w)).1 = inr k /\
    indices !! k = Some a /\
    a < length row /\
    (exists v, row !! a = Some v /\ (v =? m)%float = true) /\
    argmax_tiebreak row w =
      (Ok a,
       mkWorld (w_env w) (rand_randint 0 (length indices) (w_rng w)).2
         (w_sav w) (EvRandint 0 (length indices) :: w_trace w)).
Proof.
  intros Hne Hnan Hrand.
  destruct (argmax_tiebreak_ok row w Hne Hnan Hrand) as (m & k & a & Hm & Hk & Ha & Hrun).
  assert (Helem : forall j, j ∈ np_where_eq row m 0 <->
                    exists x, row !! j = Some x /\ (x =? m)%float = true).
  { intros j. rewrite np_where_eq_elem, Nat.sub_0_r.
    split; intros (x & ?); exists x; [tauto | split; [lia|tauto]]. }
  assert (Hain : a ∈ np_where_eq row m 0) by (by eapply list_elem_of_lookup_2).
  apply Helem in Hain as (v & Hv & Hvm).
  exists m, (np_where_eq row m 0), k, a. split_and!; try done.
  - by apply np_max_upper.
  - apply np_where_eq_sorted.
  - by eapply lookup_lt_Some.
  - by exists v.
Qed.

(** Three entries tie at 3; the fifth integer draw of the counting source
    over three positions is 1, which selects the second of them. *)
Lemma argmax_tiebreak_spec_witness :
  exists (m : float) (indices : list nat) (k a : nat),
    np_max [1; 3; 2; 3; 0; 3]%float = Ok m /\
    (forall x, x ∈ [1; 3; 2; 3; 0; 3]%float -> (x <=? m)%float = true) /\
    indices = np_where_eq [1; 3; 2; 3; 0; 3]%float m 0 /\
    StronglySorted lt indices /\
    (forall j, j ∈ indices <->
               exists x, [1; 3; 2; 3; 0; 3]%float !! j = Some x /\
                         (x =? m)%float = true) /\
    (@rand_randint nat CounterRng 0 (length indices) 4).1 = inr k /\
    indices !! k = Some a /\
    a < 6 /\
    (exists v, [1; 3; 2; 3; 0; 3]%float !! a = Some v /\ (v =? m)%float = true) /\
    @argmax_tiebreak unit nat CounterRng [1; 3; 2; 3; 0; 3]%float (world0 tt 4 [])
      = (Ok a,
         mkWorld tt (@rand_randint nat CounterRng 0 (length indices) 4).2 []
           [EvRandint 0 (length indices)]).
Proof.
  apply (@argmax_tiebreak_spec unit nat CounterRng [1; 3; 2; 3; 0; 3]%float
           (world0 tt 4 [])).
  - discriminate.
  - repeat constructor.
  - apply counter_randint_in_range.
Defined.

(** C2 fails as stated on a row that holds a NaN: the maximum is NaN, no
    position compares equal to it, and the draw over an empty range (or the
    indexing that follows) raises instead of returning an action. *)
Lemma argmax_tiebreak_nan_row_fails :
  (@argmax_tiebreak unit nat CounterRng [nan] (world0 tt 0 [])).1
    = Raise ValueError /\
  (@argmax_tiebreak unit nat CounterRng [1; nan; 2]%float (world0 tt 0 [])).1
    = Raise ValueError /\
  (@predict unit nat BanditEnv CounterRng 5
     (world0 tt 0 [[nan; 0]; [0; 0]]%float)).1 = Raise ValueError.
Proof. by vm_compute. Qed.

(** ** The update with a zero reward *)

(** C9, for finite values: in a training step with alpha = 1 and gamma = 0
    whose reward is zero, if the entry [Q[s,a]] and the maximum of the next
    state's row are finite numbers, the step succeeds and leaves exactly
    [+0.0] in [Q[s,a]]. *)
Theorem zero_reward_update_is_zero {E G : Type} `{!Environment E}
    `{!RandomSource G} (self : QLearning) (st : FitState) (w w1 : World E G)
    (a : nat) (sd : StepData) (e2 : E) (q m : float) (next_row : list float) :
  alpha self = 1%float ->
  gamma self = 0%float ->
  select_action self (current_state st) w = (Ok a, w1) ->
  env_step a (w_env w1) = (sd, e2) ->
  (sd_reward sd =? 0)%float = true ->
  entry (w_sav w) (current_state st) a = Some q ->
  w_sav w !! sd_state sd = Some next_row ->
  np_max next_row = Ok m ->
  is_finite q = true ->
  is_finite m = true ->
  exists st' w',
    fit_step self st w = (Ok st', w') /\
    entry (w_sav w') (current_state st) a = Some 0%float.
Proof.
  intros Halpha Hgamma Hsel Hstep Hr Hq Hrow Hmax Hfq Hfm.
  pose proof (sav_stable_select self (current_state st) w) as Hsav.
  rewrite Hsel in Hsav. simpl in Hsav. rewrite <- Hsav in Hq, Hrow.
  destruct (step_and_update_ok self st a w1 sd e2 q next_row m Hstep Hq Hrow Hmax)
    as (w' & Hrun & Hnew & _).
  unfold fit_step. rewrite (bind_ok _ _ _ _ _ Hsel).
  eexists _, w'. split; [exact Hrun|].
  by rewrite Hnew, td_update_zero_reward.
Qed.

(** On the bandit the greedy choice from [[0.25, 0.75]] is action 1, which
    pays 0: the entry 0.75 becomes 0. *)
Lemma zero_reward_update_is_zero_witness :
  exists st' w',
    @fit_step unit nat BanditEnv CounterRng (mkQLearning 0 1 0) (mkFit 0 [])
      (world0 tt 0 [[0.25; 0.75]; [0; 0]]%float) = (Ok st', w') /\
    entry (w_sav w') 0 1 = Some 0%float.
Proof.
  exact (@zero_reward_update_is_zero unit nat BanditEnv CounterRng
           (mkQLearning 0 1 0) (mkFit 0 [])
           (world0 tt 0 [[0.25; 0.75]; [0; 0]]%float)
           (mkWorld tt 1 [[0.25; 0.75]; [0; 0]]%float
              [EvRandint 0 1; EvUniform 0 1])
           1 (mkStep 0 0 true false) tt 0.75%float 0.75%float
           [0.25; 0.75]%float
           eq_refl eq_refl eq_refl eq_refl eq_refl eq_refl eq_refl eq_refl
           eq_refl eq_refl).
Defined.

(** C9 fails as stated for a prior value that is not finite: from minus
    infinity the update computes [-inf + (0 - -inf)], which is NaN.  Such a
    value is reached with finite rewards: two steps paying [2^1023] and
    [-2^1023] leave minus infinity in the entry, and the zero reward of the
    third step turns it into NaN. *)
Lemma zero_reward_update_from_infinity :
  td_update (mkQLearning 0 1 0) 0 0 neg_infinity = nan /\
  (nan =? 0)%float = false /\
  (@fit (list StepData) nat (ScriptEnv 1 1) CounterRng (mkQLearning 0 1 0) 2 1
     (world0 [mkStep 0 0x1p1023 false false; mkStep 0 (-0x1p1023) false false;
              mkStep 0 0 false false] 0 [])).1
    = Ok ([[neg_infinity]], [0%float]) /\
  (@fit (list StepData) nat (ScriptEnv 1 1) CounterRng (mkQLearning 0 1 0) 3 1
     (world0 [mkStep 0 0x1p1023 false false; mkStep 0 (-0x1p1023) false false;
              mkStep 0 0 false false] 0 [])).1
    = Ok ([[nan]], [0%float]).
Proof. by vm_compute. Qed.

(** ** The binned reward trace *)

Section Bins.


Lemma py_slice_nonneg {A} (l : list A) (s e : Z) :
  (0 <= s <= e)%Z ->
  py_slice l s e = take (Z.to_nat e - Z.to_nat s) (drop (Z.to_nat s) l).
Proof.
  intros Hse. unfold py_slice, py_bound.
  rewrite !(proj2 (Z.ltb_ge _ _)) by lia.
  destruct (decide (Z.of_nat (length l) <= s)%Z) as [Hout|Hin].
  - rewrite !drop_ge by lia. by rewrite !take_nil.
  - rewrite (Z.min_l s) by lia.
    destruct (decide (e <= Z.of_nat (length l))%Z) as [He|He].
    + by rewrite (Z.min_l e) by lia.
    + rewrite (Z.min_r e) by lia.
      rewrite !take_ge; [done | rewrite length_drop; lia..].
Qed.


Lemma fold_insert_seq_length {A} (f : nat -> A) (k : nat) :
  forall (a : nat) (l : list A),
    length (fold_left (fun avg i => <[i := f i]> avg) (seq a k) l) = length l.
Proof.
  induction k as [|k IH]; intros a l; simpl; [done|].
  by rewrite IH, length_insert.
Qed.


Lemma average_bins_length rewards num_bins bin_size :
  length (average_bins rewards num_bins bin_size
            (replicate (Z.to_nat num_bins) 0%float)) = Z.to_nat num_bins.
Proof.
  unfold average_bins. by rewrite fold_insert_seq_length, length_replicate.
Qed.



Context {E G : Type} `{!Environment E} `{!RandomSource G}.
Implicit Types w : World E G.




End Bins.

(** ** numpy's sum of a slice *)

(** The fuel given to the splitting is enough: any fuel of at least the
    length of the list gives the same sum. *)
Lemma pairwise_sum_fuel (f1 : nat) : forall (f2 : nat) (l : list float),
  length l <= f1 -> length l <= f2 -> pairwise_sum f1 l = pairwise_sum f2 l.
Proof.
  induction f1 as [|f1 IH]; intros [|f2] l H1 H2; cbn [pairwise_sum];
    destruct (length l <? 8) eqn:H8; try done;
    destruct (length l <=? 128) eqn:H128; try done;
    apply Nat.leb_gt in H128; try lia.
  pose proof (Nat.div_mod_eq (length l) 2) as Hhalf.
  pose proof (Nat.mod_upper_bound (length l) 2 ltac:(lia)) as Hrem.
  pose proof (Nat.mod_upper_bound (length l / 2) 8 ltac:(lia)) as Hrem8.
  f_equal; apply IH; rewrite ?length_take, ?length_drop; lia.
Qed.

(** Adding to [-0.0] changes nothing. *)
Lemma neg_zero_add (x : float) : (neg_zero + x)%float = x.
Proof.
  apply Prim2SF_inj. rewrite add_spec.
  change (Prim2SF neg_zero) with (S754_zero true).
  by destruct (Prim2SF x) as [[]|[]| |].
Qed.

(** The sum of a list that is not empty is its pairwise sum. *)
Lemma np_sum_pairwise (x : float) (l : list float) :
  np_sum (x :: l) = pairwise_sum (length (x :: l)) (x :: l).
Proof. unfold np_sum. apply neg_zero_add. Qed.

(** Fewer than eight entries are added from left to right: the sum of
    [x1; x2; ...; xn] is [(..(x1 + x2) + ..) + xn]. *)
Lemma np_sum_short (x : float) (l : list float) :
  length (x :: l) < 8 -> np_sum (x :: l) = fold_left add l x.
Proof.
  intros Hl. rewrite np_sum_pairwise.
  assert (Hsum : forall f, pairwise_sum f (x :: l) = sum_small (x :: l)).
  { intros []; cbn [pairwise_sum]; by rewrite (proj2 (Nat.ltb_lt _ _) Hl). }
  rewrite Hsum. unfold sum_small. simpl. by rewrite neg_zero_add.
Qed.

(** Eight entries are added in pairs, the pairs in pairs. *)
Lemma np_sum_eight (a0 a1 a2 a3 a4 a5 a6 a7 : float) :
  np_sum [a0; a1; a2; a3; a4; a5; a6; a7]
  = (((a0 + a1) + (a2 + a3)) + ((a4 + a5) + (a6 + a7)))%float.
Proof. by rewrite np_sum_pairwise. Qed.

(** The entries past the last full group of eight are added at the end, one
    by one.  For ten entries: *)
Lemma np_sum_ten (a0 a1 a2 a3 a4 a5 a6 a7 a8 a9 : float) :
  np_sum [a0; a1; a2; a3; a4; a5; a6; a7; a8; a9]
  = (((((a0 + a1) + (a2 + a3)) + ((a4 + a5) + (a6 + a7))) + a8) + a9)%float.
Proof. by rewrite np_sum_pairwise. Qed.

(** A bin that is not reported as 0 is the mean of its slice: numpy's sum of
    the slice over the number of its entries. *)
Lemma bin_average_mean rewards num_bins bin_size (i : nat) :
  bin_average rewards num_bins bin_size i
  = (np_sum (bin_slice rewards num_bins bin_size i)
     / float_of_nat (length (bin_slice rewards num_bins bin_size i)))%float
  \/ bin_average rewards num_bins bin_size i = 0%float.
Proof.
  unfold bin_average, bin_slice.
  destruct (_ <? _)%Z; destruct (_ <? _)%Z; auto.
Qed.



(** C4 does not hold of the code: the guard of line 145 compares the
    nominal bounds of the bin, not the slice it gets.  With one step and
    three bins the middle bin covers the entries [1, 2) of a trace of length
    one, that is none; its bounds pass the guard and the mean of the empty
    slice, 0/0, is stored: NaN instead of 0.  Ten steps in seven bins do the
    same to the sixth bin. *)
Lemma fit_empty_inner_bin_is_nan :
  (@fit unit nat BanditEnv CounterRng (mkQLearning 0 1 0) 1 3 (world0 tt 0 [])).1
    = Ok ([[1; 0]; [0; 0]]%float, [1%float; nan; 0%float]) /\
  py_slice [1%float] 1 2 = [] /\
  bin_average [1%float] 3 1 1 = nan /\
  (@fit unit nat BanditEnv CounterRng (mkQLearning 0 1 0) 10 7 (world0 tt 0 [])).1
    = Ok ([[1; 0]; [0; 0]]%float, [1; 1; 1; 1; 1; nan; 0]%float).
Proof. by vm_compute. Qed.

(** ** The trajectory of predict *)

Section Predict.
Context {E G : Type} `{!Environment E} `{!RandomSource G}.
Implicit Types w : World E G.

Lemma step_calls_app t1 t2 : step_calls (t1 ++ t2) = step_calls t1 + step_calls t2.
Proof.
  induction t1 as [|ev t1 IH]; [done|]. destruct ev; simpl; by rewrite ?IH.
Qed.

Lemma quiet_argmax row : quiet (argmax_tiebreak (E := E) (G := G) row).
Proof.
  intros w. unfold argmax_tiebreak, bind, lift.
  destruct (np_max row) as [m|e|]; simpl; try (split; [done|by exists []]).
  rewrite call_randint_eq.
  destruct (rand_randint _ _ _).1 as [e|k]; simpl.
  - split; [done|]. by eexists [_].
  - destruct (_ !! k); simpl; (split; [done|by eexists [_]]).
Qed.

Lemma read_row_inv s w row w1 :
  read_row s w = (Ok row, w1) -> w1 = w /\ w_sav w !! s = Some row.
Proof.
  unfold read_row. destruct (w_sav w !! s); [|done]. by intros [= <- <-].
Qed.

Lemma predict_while_done fuel term trunc s states actions rewards w :
  term || trunc = true ->
  predict_while fuel term trunc s states actions rewards w
  = (Ok (states, actions, rewards), w).
Proof. intros Hdone. destruct fuel; simpl; by rewrite Hdone. Qed.

(** What a returned trajectory looks like, and that any larger fuel returns
    the same. *)
Lemma predict_while_run fuel :
  forall s states actions rewards w res w',
    predict_while fuel false false s states actions rewards w = (Ok res, w') ->
    exists acts t,
      res = (states ++ map sd_state (env_replay (w_env w) acts),
             actions ++ acts,
             rewards ++ map sd_reward (env_replay (w_env w) acts)) /\
      1 <= length acts <= fuel /\
      (forall i sd, env_replay (w_env w) acts !! i = Some sd ->
                    episode_over sd = bool_decide (S i = length acts)) /\
      w_trace w' = t ++ w_trace w /\
      step_calls t = length acts /\
      (forall fuel', length acts <= fuel' ->
         predict_while fuel' false false s states actions rewards w = (Ok res, w')).
Proof.
  induction fuel as [|fuel IH]; intros s states actions rewards w res w' Hrun;
    [done|].
  simpl in Hrun.
  apply bind_ok_inv in Hrun as (row & w0 & Hrow & Hrun).
  apply read_row_inv in Hrow as [-> Hrow].
  apply bind_ok_inv in Hrun as (a & w1 & Harg & Hrun).
  destruct (quiet_argmax row w) as [Henv (t1 & Ht1 & Hs1)].
  rewrite Harg in Henv, Ht1. simpl in Henv, Ht1.
  rewrite (bind_ok _ _ _ _ _ (call_step_eq a w1)) in Hrun.
  rewrite Henv in Hrun.
  set (sd := (env_step a (w_env w)).1) in *.
  set (w2 := mkWorld _ _ _ _) in Hrun.
  assert (Hbody : forall fuel',
            predict_while (S fuel') false false s states actions rewards w
            = predict_while fuel' (sd_terminated sd) (sd_truncated sd)
                (sd_state sd) (states ++ [sd_state sd]) (actions ++ [a])
                (rewards ++ [sd_reward sd]) w2).
  { intros fuel'. simpl.
    erewrite bind_ok by (by apply read_row_eq).
    rewrite (bind_ok _ _ _ _ _ Harg).
    rewrite (bind_ok _ _ _ _ _ (call_step_eq a w1)). by rewrite Henv. }
  destruct (sd_terminated sd || sd_truncated sd) eqn:Hdone.
  - rewrite predict_while_done in Hrun by done. injection Hrun as <- <-.
    exists [a], (EvStep a :: t1). simpl. fold sd.
    split_and!; try done; try lia.
    + intros [|i] sd' Hsd'; [|done]. injection Hsd' as <-.
      unfold episode_over. by rewrite Hdone.
    + by rewrite Ht1.
    + intros [|fuel'] Hfuel; [simpl in Hfuel; lia|].
      rewrite Hbody. by apply predict_while_done.
  - apply orb_false_elim in Hdone as [Hterm Htrunc].
    rewrite Hterm, Htrunc in Hrun.
    destruct (IH _ _ _ _ _ _ _ Hrun) as (acts & t & -> & Hlen & Hover & Ht & Hs & Hmore).
    exists (a :: acts), (t ++ EvStep a :: t1). simpl. fold sd.
    split_and!; try lia.
    + by rewrite <- !app_assoc.
    + intros [|i] sd' Hsd'; simpl in Hsd'.
      * injection Hsd' as <-. unfold episode_over. rewrite Hterm, Htrunc.
        symmetry. apply bool_decide_eq_false. lia.
      * rewrite (Hover i sd' Hsd'). apply bool_decide_ext. lia.
    + rewrite Ht. simpl. by rewrite Ht1, <- app_assoc.
    + rewrite step_calls_app. simpl. lia.
    + intros [|fuel'] Hfuel; [simpl in Hfuel; lia|].
      rewrite Hbody, Hterm, Htrunc. rewrite <- !app_assoc. simpl.
      rewrite <- !app_assoc in Hmore. apply Hmore. simpl in Hfuel. lia.
Qed.

(** On a table [predict] can run on, with the contracts of the random source
    and of the environment, an episode that the environment ends within
    [mu] steps is played to its end. *)
Lemma predict_while_total (table : QTable) (mu : E -> nat) :
  randint_in_range ->
  table_ok table ->
  (forall a e, sd_state (env_step a e).1 < length table) ->
  (forall a e, episode_over (env_step a e).1 = true \/
               mu (env_step a e).2 < mu e) ->
  forall fuel s states actions rewards w,
    w_sav w = table -> s < length table -> mu (w_env w) < fuel ->
    exists res w',
      predict_while fuel false false s states actions rewards w = (Ok res, w').
Proof.
  intros Hrand Htable Hstates Hmu.
  induction fuel as [|fuel IH]; intros s states actions rewards w Hsav Hs Hfuel;
    [lia|].
  destruct (lookup_lt_is_Some_2 table s Hs) as [row Hrow].
  destruct (proj1 (Forall_forall _ _) Htable row) as [Hne Hnan];
    [by eapply list_elem_of_lookup_2|].
  destruct (argmax_tiebreak_ok row w Hne Hnan Hrand)
    as (m & k & a & _ & _ & _ & Harg).
  simpl. erewrite bind_ok by (apply read_row_eq; by rewrite Hsav).
  rewrite (bind_ok _ _ _ _ _ Harg).
  rewrite (bind_ok _ _ _ _ _ (call_step_eq _ _)). simpl.
  destruct (Hmu a (w_env w)) as [Hover|Hless].
  - rewrite predict_while_done by (exact Hover). by eexists _, _.
  - destruct (sd_terminated (env_step a (w_env w)).1
              || sd_truncated (env_step a (w_env w)).1) eqn:Hdone.
    + rewrite predict_while_done by done. by eexists _, _.
    + apply orb_false_elim in Hdone as [-> ->].
      apply IH; simpl; [done | apply Hstates | lia].
Qed.

End Predict.

(** C8: whenever [predict] returns, it returns three sequences of one length
    [K >= 1]: the states and rewards are those the environment reported for
    the chosen actions, step by step from the reset (so the start state is
    not among them); the first [K - 1] step results do not end the episode
    and the [K]-th does; the trace shows the reset followed by exactly [K]
    steps; and every fuel from [K] on returns the same.  It does return, with
    fuel [mu + 1], on a table whose rows are non-empty and free of NaN, with a
    random source and an environment that keep their contracts, when the
    environment ends every episode within [mu] steps. *)
Theorem predict_trajectory {E G : Type} `{!Environment E} `{!RandomSource G}
    (w : World E G) :
  (forall (fuel : nat) (states actions : list nat) (rewards : list float)
          (w' : World E G),
     predict fuel w = (Ok (states, actions, rewards), w') ->
     exists (K : nat) (t : list Event),
       1 <= K <= fuel /\
       length states = K /\ length actions = K /\ length rewards = K /\
       states = map sd_state (env_replay (env_reset (w_env w)).2 actions) /\
       rewards = map sd_reward (env_replay (env_reset (w_env w)).2 actions) /\
       (forall i sd,
          env_replay (env_reset (w_env w)).2 actions !! i = Some sd ->
          episode_over sd = bool_decide (S i = K)) /\
       w_trace w' = t ++ EvReset :: w_trace w /\
       step_calls t = K /\
       (forall fuel', K <= fuel' ->
          predict fuel' w = (Ok (states, actions, rewards), w'))) /\
  (forall mu : E -> nat,
     randint_in_range ->
     table_ok (w_sav w) ->
     (forall e, (env_reset e).1 < length (w_sav w)) ->
     (forall a e, sd_state (env_step a e).1 < length (w_sav w)) ->
     (forall a e, episode_over (env_step a e).1 = true \/
                  mu (env_step a e).2 < mu e) ->
     exists states actions rewards w',
       predict (S (mu (env_reset (w_env w)).2)) w
       = (Ok (states, actions, rewards), w')).
Proof.
  set (w1 := mkWorld (env_reset (w_env w)).2 (w_rng w) (w_sav w)
               (EvReset :: w_trace w)).
  assert (Hpredict : forall fuel,
            predict fuel w
            = predict_while fuel false false (env_reset (w_env w)).1 [] [] [] w1).
  { intros fuel. unfold predict. by rewrite (bind_ok _ _ _ _ _ (call_reset_eq w)). }
  split.
  - intros fuel states actions rewards w' Hrun. rewrite Hpredict in Hrun.
    destruct (predict_while_run _ _ _ _ _ _ _ _ Hrun)
      as (acts & t & Hres & Hlen & Hover & Ht & Hs & Hmore).
    simpl in *. injection Hres as -> -> ->.
    assert (Hreplay : forall e, length (env_replay e acts) = length acts).
    { clear. induction acts as [|a acts IH]; intros e; simpl; [done|by rewrite IH]. }
    exists (length acts), t. split_and!; try done; try lia.
    + by rewrite length_map, Hreplay.
    + by rewrite length_map, Hreplay.
    + intros fuel' Hfuel. rewrite Hpredict. by apply Hmore.
  - intros mu Hrand Htable Hreset Hstates Hmu. rewrite Hpredict.
    destruct (predict_while_total (w_sav w) mu Hrand Htable Hstates Hmu
                (S (mu (w_env w1))) (env_reset (w_env w)).1 [] [] [] w1)
      as ([[states actions] rewards] & w' & Hrun); [done | apply Hreset | lia |].
    by exists states, actions, rewards, w'.
Qed.

(** In the corridor every episode ends with its third step; with a table
    that prefers action 1 everywhere, [predict] returns the three states
    after the start, three times action 1 and three rewards of 1, after
    three steps. *)
Lemma predict_trajectory_witness :
  @predict nat nat CorridorEnv CounterRng 4
    (world0 7 0 [[0; 1]; [0; 1]; [0; 1]; [0; 0]]%float)
  = (Ok ([1; 2; 3], [1; 1; 1], [1; 1; 1]%float),
     mkWorld 3 3 [[0; 1]; [0; 1]; [0; 1]; [0; 0]]%float
       [EvStep 1; EvRandint 0 1; EvStep 1; EvRandint 0 1;
        EvStep 1; EvRandint 0 1; EvReset]) /\
  (exists (K : nat) (t : list Event),
     1 <= K <= 4 /\
     length [1; 2; 3] = K /\ length [1; 1; 1] = K /\
     length [1; 1; 1]%float = K /\
     [1; 2; 3] = map sd_state (@env_replay nat CorridorEnv 0 [1; 1; 1]) /\
     [1; 1; 1]%float = map sd_reward (@env_replay nat CorridorEnv 0 [1; 1; 1]) /\
     (forall i sd,
        @env_replay nat CorridorEnv 0 [1; 1; 1] !! i = Some sd ->
        episode_over sd = bool_decide (S i = K)) /\
     [EvStep 1; EvRandint 0 1; EvStep 1; EvRandint 0 1;
      EvStep 1; EvRandint 0 1; EvReset] = t ++ [EvReset] /\
     step_calls t = K /\
     (forall fuel', K <= fuel' ->
        @predict nat nat CorridorEnv CounterRng fuel'
          (world0 7 0 [[0; 1]; [0; 1]; [0; 1]; [0; 0]]%float)
        = (Ok ([1; 2; 3], [1; 1; 1], [1; 1; 1]%float),
           mkWorld 3 3 [[0; 1]; [0; 1]; [0; 1]; [0; 0]]%float
             [EvStep 1; EvRandint 0 1; EvStep 1; EvRandint 0 1;
              EvStep 1; EvRandint 0 1; EvReset]))) /\
  (exists states actions rewards w',
     @predict nat nat CorridorEnv CounterRng 4
       (world0 7 0 [[0; 1]; [0; 1]; [0; 1]; [0; 0]]%float)
     = (Ok (states, actions, rewards), w')).
Proof.
  pose proof (@predict_trajectory nat nat CorridorEnv CounterRng
                (world0 7 0 [[0; 1]; [0; 1]; [0; 1]; [0; 0]]%float))
    as [Hpartial Htotal].
  split_and!.
  - reflexivity.
  - exact (Hpartial 4 [1; 2; 3] [1; 1; 1] [1; 1; 1]%float
             (mkWorld 3 3 [[0; 1]; [0; 1]; [0; 1]; [0; 0]]%float
                [EvStep 1; EvRandint 0 1; EvStep 1; EvRandint 0 1;
                 EvStep 1; EvRandint 0 1; EvReset]) eq_refl).
  - apply (Htotal (fun e => 3 - e)).
    + apply counter_randint_in_range.
    + repeat constructor; discriminate.
    + intros e. simpl. lia.
    + intros a e. simpl. lia.
    + intros a e. unfold episode_over.
      change (env_step a e) with (corridor_step a e). unfold corridor_step.
      cbn [fst snd sd_terminated sd_truncated]. rewrite orb_false_r.
      destruct (Nat.leb_spec0 3 (S e)); [by left | right; lia].
Defined.

(** * Further properties of fit and predict *)

(** ** The shape of the table and failed steps *)

Section Shape.
Context {E G : Type} `{!Environment E} `{!RandomSource G}.
Implicit Types w : World E G.

Lemma table_shape_zeros n_states n_actions :
  table_shape n_states n_actions (np_zeros2 n_states n_actions).
Proof.
  unfold table_shape, np_zeros2. rewrite length_replicate. split; [done|].
  apply Forall_replicate. apply length_replicate.
Qed.

Lemma table_shape_insert n_states n_actions (table : QTable) s a row v :
  table_shape n_states n_actions table -> table !! s = Some row ->
  table_shape n_states n_actions (<[s := <[a := v]> row]> table).
Proof.
  intros [Hlen Hrows] Hs. split; [by rewrite length_insert|].
  apply Forall_insert; [done|]. rewrite length_insert.
  eapply (proj1 (Forall_forall _ _) Hrows). by eapply list_elem_of_lookup_2.
Qed.

(** What [step_and_update] does to the array: nothing when it fails, one
    entry of one row replaced when it succeeds. *)
Lemma step_and_update_sav self st a w :
  match (step_and_update self st a w).1 with
  | Ok _ =>
      exists row v,
        w_sav w !! current_state st = Some row /\
        w_sav (step_and_update self st a w).2
        = <[current_state st := <[a := v]> row]> (w_sav w)
  | _ => w_sav (step_and_update self st a w).2 = w_sav w
  end.
Proof.
  unfold step_and_update, bind. rewrite call_step_eq. simpl.
  destruct (sd_truncated _ || sd_terminated _);
    [rewrite call_reset_eq|unfold ret at 1]; simpl;
    unfold read_row, lift, update_entry; simpl;
    (destruct (w_sav w !! sd_state _) as [next_row|]; simpl; [|done];
     destruct (np_max next_row) as [m|e|]; simpl; try done;
     destruct (w_sav w !! current_state st) as [row|] eqn:Hs; simpl; [|done];
     destruct (row !! a) as [q|]; simpl; [|done]; by eexists _, _).
Qed.

Lemma fit_step_sav self st w :
  match (fit_step self st w).1 with
  | Ok _ =>
      exists row a v,
        w_sav w !! current_state st = Some row /\
        w_sav (fit_step self st w).2
        = <[current_state st := <[a := v]> row]> (w_sav w)
  | _ => w_sav (fit_step self st w).2 = w_sav w
  end.
Proof.
  unfold fit_step, bind.
  pose proof (sav_stable_select self (current_state st) w) as Hsel.
  destruct (select_action self (current_state st) w) as [[a|e|] w1];
    simpl in *; try done.
  pose proof (step_and_update_sav self st a w1) as Hstep.
  destruct (step_and_update self st a w1) as [[st'|e|] w2]; simpl in *;
    rewrite Hsel in Hstep; try done.
  destruct Hstep as (row & v & Hrow & ->). by exists row, a, v.
Qed.

Lemma fit_prefix_shape self num_bins i : forall w st w_i,
  fit_prefix self num_bins i w = (Ok st, w_i) ->
  table_shape observation_space_n action_space_n (w_sav w_i).
Proof.
  induction i as [|i IH]; intros w st w_i Hrun.
  - rewrite (fit_prefix_0_sav _ _ _ _ _ Hrun). apply table_shape_zeros.
  - rewrite fit_prefix_snoc in Hrun.
    apply bind_ok_inv in Hrun as (st0 & w0 & Hprev & Hstep).
    pose proof (fit_step_sav self st0 w0) as Hsav.
    rewrite Hstep in Hsav. simpl in Hsav.
    destruct Hsav as (row & a & v & Hrow & ->).
    apply table_shape_insert; [by eapply IH | done].
Qed.

End Shape.

(** X1: the table [fit] returns has one row per state of the environment
    and one entry per action in every row, whatever the run did. *)
Theorem fit_returns_table_of_declared_shape {E G : Type} `{!Environment E}
    `{!RandomSource G} (self : QLearning) (steps num_bins : Z)
    (w w' : World E G) (table : QTable) (avg_rewards : list float) :
  fit self steps num_bins w = (Ok (table, avg_rewards), w') ->
  table_shape observation_space_n action_space_n table.
Proof.
  intros Hfit. rewrite fit_unfold in Hfit.
  apply bind_ok_inv in Hfit as (st & w_n & Hprefix & Hrest).
  apply bind_ok_inv in Hrest as (bin_size & w2 & Hceil & Hrest).
  apply bind_ok_inv in Hrest as (tbl & w3 & Hget & Hrest).
  injection Hrest as <- _ _. injection Hget as <- _.
  unfold lift in Hceil. injection Hceil as _ <-.
  by eapply fit_prefix_shape.
Qed.

(** Five exploring steps in the corridor return a table of four rows of two
    entries. *)
Lemma fit_returns_table_of_declared_shape_witness :
  exists avg_rewards w',
    @fit nat nat CorridorEnv CounterRng (mkQLearning 1 0.5 0.5) 5 2
      (world0 0 0 [])
    = (Ok ([[0; 0.625]; [0; 0.5]; [0; 0]; [0; 0]]%float, avg_rewards), w') /\
    table_shape 4 2 [[0; 0.625]; [0; 0.5]; [0; 0]; [0; 0]]%float.
Proof.
  eexists _, _. split; [vm_compute; reflexivity|].
  eapply (@fit_returns_table_of_declared_shape nat nat CorridorEnv CounterRng
            (mkQLearning 1 0.5 0.5) 5 2 (world0 0 0 [])).
  vm_compute. reflexivity.
Defined.

(** X3: a training step that fails (an index out of range, an empty row, a
    failed draw) has not written to the table: the update of line 135 is the
    last thing a step does that can fail, and it fails before it writes. *)
Theorem failed_step_leaves_table {E G : Type} `{!Environment E}
    `{!RandomSource G} (self : QLearning) (st : FitState) (w : World E G)
    (e : exn) :
  (fit_step self st w).1 = Raise e ->
  w_sav (fit_step self st w).2 = w_sav w.
Proof.
  intros Hfail. pose proof (fit_step_sav self st w) as Hsav.
  by rewrite Hfail in Hsav.
Qed.

(** The scripted environment reports state 5 to an agent whose table has one
    row: the step raises [IndexError] after the environment was stepped, and
    the table is as before. *)
Lemma failed_step_leaves_table_witness :
  @fit_step (list StepData) nat (ScriptEnv 1 1) CounterRng (mkQLearning 0 1 0)
    (mkFit 0 []) (world0 [mkStep 5 1 false false] 0 [[0.25%float]])
  = (Raise IndexError,
     mkWorld [] 1 [[0.25%float]] [EvStep 0; EvRandint 0 1; EvUniform 0 1]) /\
  w_sav (@fit_step (list StepData) nat (ScriptEnv 1 1) CounterRng
           (mkQLearning 0 1 0) (mkFit 0 [])
           (world0 [mkStep 5 1 false false] 0 [[0.25%float]])).2
  = [[0.25%float]].
Proof.
  split; [reflexivity|].
  exact (@failed_step_leaves_table (list StepData) nat (ScriptEnv 1 1)
           CounterRng (mkQLearning 0 1 0) (mkFit 0 [])
           (world0 [mkStep 5 1 false false] 0 [[0.25%float]]) IndexError
           eq_refl).
Defined.

(** ** Calls made by a training run *)

Section Calls.
Context {E G : Type} `{!Environment E} `{!RandomSource G}.
Implicit Types w : World E G.

Lemma uniform_calls_app t1 t2 :
  uniform_calls (t1 ++ t2) = uniform_calls t1 + uniform_calls t2.
Proof.
  induction t1 as [|ev t1 IH]; [done|]. destruct ev; simpl; by rewrite ?IH.
Qed.

Lemma randint_calls_app t1 t2 :
  randint_calls (t1 ++ t2) = randint_calls t1 + randint_calls t2.
Proof.
  induction t1 as [|ev t1 IH]; [done|]. destruct ev; simpl; by rewrite ?IH.
Qed.

Lemma reset_calls_app t1 t2 :
  reset_calls (t1 ++ t2) = reset_calls t1 + reset_calls t2.
Proof.
  induction t1 as [|ev t1 IH]; [done|]. destruct ev; simpl; by rewrite ?IH.
Qed.

Lemma call_randint_inv lo hi w k w1 :
  call_randint lo hi w = (Ok k, w1) ->
  (rand_randint lo hi (w_rng w)).1 = inr k /\
  w1 = mkWorld (w_env w) (rand_randint lo hi (w_rng w)).2 (w_sav w)
         (EvRandint lo hi :: w_trace w).
Proof.
  rewrite call_randint_eq.
  destruct (rand_randint lo hi (w_rng w)).1 as [e|k']; [done|].
  by intros [= -> <-].
Qed.

(** A successful argmax returned a position that holds the maximum, after
    one integer draw and nothing else. *)
Lemma argmax_tiebreak_inv row w a w1 :
  argmax_tiebreak row w = (Ok a, w1) ->
  exists m v,
    np_max row = Ok m /\ row !! a = Some v /\ (v =? m)%float = true /\
    w_env w1 = w_env w /\ w_sav w1 = w_sav w /\
    w_trace w1 = EvRandint 0 (length (np_where_eq row m 0)) :: w_trace w.
Proof.
  unfold argmax_tiebreak. intros Hrun.
  apply bind_ok_inv in Hrun as (m & w0 & Hm & Hrun).
  unfold lift in Hm. injection Hm as Hm <-.
  apply bind_ok_inv in Hrun as (k & w2 & Hk & Hrun).
  apply call_randint_inv in Hk as [_ ->].
  destruct (np_where_eq row m 0 !! k) as [a'|] eqn:Ha; [|done].
  injection Hrun as -> <-.
  assert (Hin : a ∈ np_where_eq row m 0) by (by eapply list_elem_of_lookup_2).
  apply np_where_eq_elem in Hin as (v & _ & Hv & Hvm).
  rewrite Nat.sub_0_r in Hv. by exists m, v.
Qed.

Lemma select_action_trace self s w a w1 :
  select_action self s w = (Ok a, w1) ->
  exists lo hi, w_trace w1 = EvRandint lo hi :: EvUniform 0 1 :: w_trace w.
Proof.
  unfold select_action. rewrite (bind_ok _ _ _ _ _ (call_uniform_eq _ _ _)).
  destruct (_ <? _)%float.
  - intros [_ ->]%call_randint_inv. by eexists _, _.
  - intros Hrun. apply bind_ok_inv in Hrun as (row & w0 & Hrow & Hrun).
    apply read_row_inv in Hrow as [-> _].
    apply argmax_tiebreak_inv in Hrun as (m & v & _ & _ & _ & _ & _ & ->).
    by eexists _, _.
Qed.

Lemma update_entry_inv s a f w u w' :
  update_entry s a f w = (Ok u, w') ->
  w_env w' = w_env w /\ w_rng w' = w_rng w /\ w_trace w' = w_trace w.
Proof.
  unfold update_entry.
  destruct (w_sav w !! s) as [row|]; [|done].
  destruct (row !! a); [|done]. by intros [= _ <-].
Qed.

Lemma step_and_update_trace self st a w st' w' :
  step_and_update self st a w = (Ok st', w') ->
  exists b : bool,
    w_trace w' = (if b then [EvReset] else []) ++ EvStep a :: w_trace w.
Proof.
  unfold step_and_update.
  rewrite (bind_ok _ _ _ _ _ (call_step_eq a w)).
  set (sd := (env_step a (w_env w)).1).
  intros Hrun. exists (sd_truncated sd || sd_terminated sd).
  destruct (sd_truncated sd || sd_terminated sd).
  - rewrite (bind_ok _ _ _ _ _ (call_reset_eq _)) in Hrun.
    apply bind_ok_inv in Hrun as (row & w0 & Hrow & Hrun).
    apply read_row_inv in Hrow as [-> _].
    apply bind_ok_inv in Hrun as (m & w1 & Hm & Hrun).
    unfold lift in Hm. injection Hm as _ <-.
    apply bind_ok_inv in Hrun as (u & w2 & Hupd & Hrun).
    apply update_entry_inv in Hupd as (_ & _ & Htrace).
    injection Hrun as _ <-. by rewrite Htrace.
  - unfold bind at 1, ret at 1 in Hrun.
    apply bind_ok_inv in Hrun as (row & w0 & Hrow & Hrun).
    apply read_row_inv in Hrow as [-> _].
    apply bind_ok_inv in Hrun as (m & w1 & Hm & Hrun).
    unfold lift in Hm. injection Hm as _ <-.
    apply bind_ok_inv in Hrun as (u & w2 & Hupd & Hrun).
    apply update_entry_inv in Hupd as (_ & _ & Htrace).
    injection Hrun as _ <-. by rewrite Htrace.
Qed.

Lemma fit_loop_calls self n : forall st w st' w',
  fit_loop self n st w = (Ok st', w') ->
  exists t,
    w_trace w' = t ++ w_trace w /\
    step_calls t = n /\ uniform_calls t = n /\ randint_calls t = n /\
    reset_calls t <= n.
Proof.
  induction n as [|n IH]; intros st w st' w' Hrun; simpl in Hrun.
  - injection Hrun as _ <-. by exists [].
  - apply bind_ok_inv in Hrun as (st1 & w1 & Hstep & Hrun).
    unfold fit_step in Hstep.
    apply bind_ok_inv in Hstep as (a & w0 & Hsel & Hstep).
    apply select_action_trace in Hsel as (lo & hi & Hsel).
    apply step_and_update_trace in Hstep as (b & Hstep).
    apply IH in Hrun as (t & Ht & Hs & Hu & Hr & Hz).
    exists (t ++ (if b then [EvReset] else [])
              ++ [EvStep a; EvRandint lo hi; EvUniform 0 1]).
    rewrite Ht, Hstep, Hsel, <- !app_assoc.
    rewrite !step_calls_app, !uniform_calls_app, !randint_calls_app,
      !reset_calls_app.
    split; [by destruct b|]. destruct b; simpl; lia.
Qed.

End Calls.

(** X2: a call of [fit] that returns has made, after its initial reset,
    exactly [steps] calls to [env.step], [steps] real draws and [steps]
    integer draws (two random numbers per step, as the docstring asks), and
    at most one further reset per step. *)
Theorem fit_makes_two_draws_per_step {E G : Type} `{!Environment E}
    `{!RandomSource G} (self : QLearning) (steps num_bins : Z)
    (w w' : World E G) (res : QTable * list float) :
  fit self steps num_bins w = (Ok res, w') ->
  exists t,
    w_trace w' = t ++ EvReset :: w_trace w /\
    step_calls t = Z.to_nat steps /\
    uniform_calls t = Z.to_nat steps /\
    randint_calls t = Z.to_nat steps /\
    reset_calls t <= Z.to_nat steps.
Proof.
  intros Hfit.
  assert (Hbins : (0 <= num_bins)%Z).
  { destruct (Z.ltb_spec num_bins 0) as [Hneg|]; [|done].
    by rewrite fit_negative_bins in Hfit. }
  rewrite fit_after_reset in Hfit by done.
  apply bind_ok_inv in Hfit as (st & w_n & Hloop & Hrest).
  apply fit_loop_calls in Hloop as (t & Ht & Hcounts).
  apply bind_ok_inv in Hrest as (bin_size & w2 & Hceil & Hrest).
  apply bind_ok_inv in Hrest as (tbl & w3 & Hget & Hrest).
  injection Hrest as _ <-. injection Hget as _ <-.
  unfold lift in Hceil. injection Hceil as _ <-.
  by exists t.
Qed.

(** Four greedy steps on the bandit: every step ends the episode, so the
    trace holds four steps, four draws of each kind and four more resets. *)
Lemma fit_makes_two_draws_per_step_witness :
  exists res w' t,
    @fit unit nat BanditEnv CounterRng (mkQLearning 0 1 0) 4 2 (world0 tt 0 [])
    = (Ok res, w') /\
    w_trace w' = t ++ [EvReset] /\
    step_calls t = 4 /\ uniform_calls t = 4 /\ randint_calls t = 4 /\
    reset_calls t <= 4.
Proof.
  eexists _, _.
  assert (Hrun : @fit unit nat BanditEnv CounterRng (mkQLearning 0 1 0) 4 2
                   (world0 tt 0 []) = (Ok _, _)) by (vm_compute; reflexivity).
  destruct (@fit_makes_two_draws_per_step unit nat BanditEnv CounterRng
              (mkQLearning 0 1 0) 4 2 (world0 tt 0 []) _ _ Hrun) as (t & Ht).
  exists t. split; [exact Hrun | exact Ht].
Defined.

(** ** More facts about binary64 and the maximum of a row *)

Section MoreFloatFacts.

Lemma float_leb_not_nan x y :
  (x <=? y)%float = true -> is_nan x = false /\ is_nan y = false.
Proof.
  rewrite FloatAxioms.leb_spec, !is_nan_spec. unfold SFleb.
  destruct (Prim2SF x) as [?|?| |? ? ?], (Prim2SF y) as [?|?| |? ? ?];
    simpl; try done.
Qed.

Lemma float_eqb_not_nan x y :
  (x =? y)%float = true -> is_nan x = false /\ is_nan y = false.
Proof.
  rewrite FloatAxioms.eqb_spec, !is_nan_spec. unfold SFeqb.
  destruct (Prim2SF x) as [?|?| |? ? ?], (Prim2SF y) as [?|?| |? ? ?];
    simpl; try done.
Qed.

(** [np.max] propagates NaN: a maximum that is a number was taken over
    numbers only. *)
Lemma fold_maximum_not_nan xs : forall x,
  is_nan (fold_left np_maximum xs x) = false ->
  is_nan x = false /\ Forall (fun y => is_nan y = false) xs.
Proof.
  induction xs as [|y xs IH]; intros x Hm; simpl in Hm; [by split|].
  apply IH in Hm as [Hxy Hxs]. unfold np_maximum in Hxy.
  destruct (y <=? x)%float eqn:Hle.
  - apply float_leb_not_nan in Hle as [Hy Hx]. simpl in Hxy.
    split; [done|by constructor].
  - destruct (is_nan x) eqn:Hx; simpl in Hxy; [congruence|].
    split; [done|by constructor].
Qed.

Lemma np_max_not_nan row m :
  np_max row = Ok m -> is_nan m = false ->
  Forall (fun y => is_nan y = false) row.
Proof.
  destruct row as [|x xs]; [done|]. simpl. intros [= <-] Hm.
  apply fold_maximum_not_nan in Hm as [Hx Hxs]. by constructor.
Qed.

(** With alpha = 0 the update adds a zero to the old value, provided the
    temporal-difference error is finite. *)
Lemma td_update_alpha_zero self r m q :
  alpha self = 0%float ->
  is_finite (r + gamma self * m - q)%float = true ->
  (td_update self r m q =? q)%float = true.
Proof.
  intros Ha Hfin. unfold td_update. rewrite Ha.
  set (x := (r + gamma self * m - q)%float) in *.
  assert (Hq : (exists s, Prim2SF q = S754_zero s) \/
               (exists s mq eq, Prim2SF q = S754_finite s mq eq)).
  { destruct (finite_SF x Hfin) as [[s Hx]|(s & mx & ex & Hx & _)];
      unfold x in Hx; rewrite sub_spec in Hx; unfold SF64sub in Hx;
      (destruct (Prim2SF q) as [s'|s'| |s' mq eq]; [by eauto| | |by eauto];
       destruct (Prim2SF (r + gamma self * m)%float) as [[]|[]| |[] ? ?];
       try destruct s'; simpl in Hx; done). }
  rewrite FloatAxioms.eqb_spec, add_spec, mul_spec.
  change (Prim2SF 0) with (S754_zero false).
  unfold SF64add, SF64mul, SFeqb.
  destruct (finite_SF x Hfin) as [[sx ->]|(sx & mx & ex & -> & _)];
    destruct Hq as [[sq ->]|(sq & mq & eq & ->)]; simpl;
    try (by destruct sq, sx);
    rewrite Z.compare_refl, Pos.compare_cont_refl; by destruct sq.
Qed.

End MoreFloatFacts.

(** ** The temporal-difference update *)

(** C1: a training step of [fit] that selects action [a] in state
    [s = current_state st], with [q = Q[s,a]] in range, and to which the
    environment reports [sd] with [sd_state sd] a non-empty row of the table,
    updates the table by
    [Q[s,a] <- q + alpha * (reward + gamma * max_next_Q - q)], and changes no
    other entry.  Here [max_next_Q] is the maximum of the row of the reported
    next state, in the table as it was before the update: an entry of that
    row that bounds every entry of the row, or NaN when the row holds a NaN.
    This is so also when the step ended the episode: the environment is then
    already reset (the trace shows the reset after the step), but the state
    it returned only becomes the current state of the next iteration; its row
    plays no part in the update. *)
Theorem fit_step_td_rule {E G : Type} `{!Environment E} `{!RandomSource G}
    (self : QLearning) (st : FitState) (w w1 : World E G) (a : nat)
    (sd : StepData) (e2 : E) (q : float) (next_row : list float) :
  select_action self (current_state st) w = (Ok a, w1) ->
  env_step a (w_env w1) = (sd, e2) ->
  entry (w_sav w) (current_state st) a = Some q ->
  w_sav w !! sd_state sd = Some next_row ->
  next_row <> [] ->
  exists (max_next_Q : float) (w' : World E G),
    max_next_Q ∈ next_row /\
    (is_nan max_next_Q = false ->
       forall x, x ∈ next_row -> (x <=? max_next_Q)%float = true) /\
    (Exists (fun x => is_nan x = true) next_row -> is_nan max_next_Q = true) /\
    fit_step self st w =
      (Ok (mkFit (if sd_truncated sd || sd_terminated sd
                  then (env_reset e2).1 else sd_state sd)
                 (all_rewards st ++ [sd_reward sd])), w') /\
    entry (w_sav w') (current_state st) a =
      Some (q + alpha self * (sd_reward sd + gamma self * max_next_Q - q))%float /\
    (forall s' a', (s', a') <> (current_state st, a) ->
       entry (w_sav w') s' a' = entry (w_sav w) s' a') /\
    w_trace w' =
      (if sd_truncated sd || sd_terminated sd then [EvReset] else [])
        ++ EvStep a :: w_trace w1.
Proof.
  intros Hsel Hstep Hq Hrow Hne.
  destruct (np_max_nonempty next_row Hne) as [m Hmax].
  pose proof (sav_stable_select self (current_state st) w) as Hsav.
  rewrite Hsel in Hsav. simpl in Hsav.
  unfold fit_step. rewrite (bind_ok _ _ _ _ _ Hsel).
  rewrite <- Hsav in Hq, Hrow.
  destruct (step_and_update_ok self st a w1 sd e2 q next_row m Hstep Hq Hrow Hmax)
    as (w' & Hrun & Hnew & Hframe & Htrace & _).
  exists m, w'. rewrite <- Hsav. split_and!; try done.
  - by apply np_max_in.
  - intros Hm. apply np_max_upper; [|done]. by eapply np_max_not_nan.
  - intros Hnan. destruct (is_nan m) eqn:Hm; [done|].
    pose proof (np_max_not_nan _ _ Hmax Hm) as Hall.
    apply Exists_exists in Hnan as (x & Hx & Hxnan).
    rewrite Forall_forall in Hall. apply Hall in Hx. congruence.
Qed.

(** A scripted step that ends the episode: from state 0 the environment
    reports state 1, reward 1 and termination, and its reset returns state
    0.  The table is [[3; 3]; [1; 7]]; with alpha = gamma = 1 the entry of
    (state 0, action 0) becomes [3 + (1 + 7 - 3) = 8]: the maximum 7 is that
    of the row of the reported state 1, not its first entry 1 and not the
    maximum 3 of the row of the reset state. *)
Lemma fit_step_td_rule_witness :
  exists w' : World (list StepData) nat,
    @fit_step (list StepData) nat (ScriptEnv 2 2) CounterRng (mkQLearning 0 1 1)
      (mkFit 0 []) (world0 [mkStep 1 1 true false] 0 [[3; 3]; [1; 7]]%float)
      = (Ok (mkFit 0 [1%float]), w') /\
    w_sav w' = [[8; 3]; [1; 7]]%float /\
    entry (w_sav w') 0 0 = Some 8%float /\
    w_trace w' = [EvReset; EvStep 0; EvRandint 0 2; EvUniform 0 1].
Proof.
  destruct (@fit_step_td_rule (list StepData) nat (ScriptEnv 2 2) CounterRng
              (mkQLearning 0 1 1) (mkFit 0 [])
              (world0 [mkStep 1 1 true false] 0 [[3; 3]; [1; 7]]%float)
              (mkWorld [mkStep 1 1 true false] 1 [[3; 3]; [1; 7]]%float
                 [EvRandint 0 2; EvUniform 0 1])
              0 (mkStep 1 1 true false) [] 3%float [1; 7]%float
              eq_refl eq_refl eq_refl eq_refl ltac:(done))
    as (m & w' & Hin & Hupper & _ & Hrun & Hentry & _ & Htrace).
  assert (Hm : m = 7%float).
  { rewrite !elem_of_cons in Hin. destruct Hin as [->|[->|Hin]]; [|done|].
    - specialize (Hupper eq_refl 7%float ltac:(rewrite !elem_of_cons; auto)).
      vm_compute in Hupper. discriminate.
    - by apply elem_of_nil in Hin. }
  subst m. exists w'. split; [exact Hrun|].
  split; [|split; [etrans; [exact Hentry | vm_compute; reflexivity] | exact Htrace]].
  vm_compute in Hrun. by injection Hrun as <-.
Defined.

(** ** Arguments of fit outside the documented range *)

Section Arguments.
Context {E G : Type} `{!Environment E} `{!RandomSource G}.
Implicit Types w : World E G.

(** The training loop of [fit] starts from the zero table, after one
    reset. *)
Lemma fit_prefix_after_reset self num_bins n w :
  (0 <= num_bins)%Z ->
  fit_prefix self num_bins n w =
    fit_loop self n (mkFit (env_reset (w_env w)).1 [])
      (mkWorld (env_reset (w_env w)).2 (w_rng w)
         (np_zeros2 observation_space_n action_space_n)
         (EvReset :: w_trace w)).
Proof.
  intros Hbins. unfold fit_prefix.
  erewrite bind_ok by reflexivity.
  erewrite bind_ok
    by (unfold lift, np_zeros1; rewrite (proj2 (Z.ltb_ge _ _) Hbins); reflexivity).
  by rewrite (bind_ok _ _ _ _ _ (call_reset_eq _)).
Qed.

End Arguments.

(** C5, as the code has it: [fit] validates nothing itself.  A negative
    [num_bins] makes numpy's allocation fail with ValueError before any call
    to the environment.  With [num_bins = 0] the call always fails, but only
    after the reset and the training loop: when the loop completes, its
    [steps] steps are in the trace and the division that follows it fails
    with ZeroDivisionError; when a training step fails, its error is the one
    signalled.  And [steps <= 0] with a positive [num_bins] is no error at
    all: the environment is reset once, no step is taken and the all-zero
    table is returned with [num_bins] bins. *)
Theorem fit_invalid_arguments {E G : Type} `{!Environment E} `{!RandomSource G}
    (self : QLearning) (steps num_bins : Z) (w : World E G) :
  ((num_bins < 0)%Z ->
     fit self steps num_bins w =
       (Raise ValueError,
        mkWorld (w_env w) (w_rng w)
          (np_zeros2 observation_space_n action_space_n) (w_trace w))) /\
  (num_bins = 0%Z ->
     (exists e, (fit self steps num_bins w).1 = Raise e) /\
     (forall st w_n,
        fit_prefix self num_bins (Z.to_nat steps) w = (Ok st, w_n) ->
        fit self steps num_bins w = (Raise ZeroDivisionError, w_n) /\
        exists t,
          w_trace w_n = t ++ EvReset :: w_trace w /\
          step_calls t = Z.to_nat steps) /\
     (forall e w_n,
        fit_prefix self num_bins (Z.to_nat steps) w = (Raise e, w_n) ->
        fit self steps num_bins w = (Raise e, w_n) /\
        exists t, w_trace w_n = t ++ EvReset :: w_trace w)) /\
  ((steps <= 0)%Z -> (1 <= num_bins)%Z ->
     exists avg_rewards,
       fit self steps num_bins w =
         (Ok (np_zeros2 observation_space_n action_space_n, avg_rewards),
          mkWorld (env_reset (w_env w)).2 (w_rng w)
            (np_zeros2 observation_space_n action_space_n)
            (EvReset :: w_trace w)) /\
       length avg_rewards = Z.to_nat num_bins).
Proof.
  split_and!.
  - apply fit_negative_bins.
  - intros ->. split_and!.
    + destruct (fit_zero_bins self steps w) as (e & _ & He & _). by exists e.
    + intros st w_n Hpre. rewrite fit_unfold, (bind_ok _ _ _ _ _ Hpre).
      split; [done|].
      rewrite fit_prefix_after_reset in Hpre by done.
      apply fit_loop_calls in Hpre as (t & Ht & Hs & _). by exists t.
    + intros e w_n Hpre. rewrite fit_unfold. unfold bind at 1. rewrite Hpre.
      split; [done|].
      rewrite fit_prefix_after_reset in Hpre by done.
      destruct (traces_fit_loop self (Z.to_nat steps)
                  (mkFit (env_reset (w_env w)).1 [])
                  (mkWorld (env_reset (w_env w)).2 (w_rng w)
                     (np_zeros2 observation_space_n action_space_n)
                     (EvReset :: w_trace w))) as [_ (t & Ht & _)].
      rewrite Hpre in Ht. by exists t.
  - intros Hsteps Hbins. rewrite fit_no_steps by done.
    eexists. split; [reflexivity|]. apply average_bins_length.
Qed.

(** The three cases on the bandit: ValueError with an empty trace;
    ZeroDivisionError after the reset, the two draws, the step and the reset
    that the terminated step causes; and a normal return for no step. *)
Lemma fit_invalid_arguments_witness :
  @fit unit nat BanditEnv CounterRng (mkQLearning 0 1 0) 5 (-1) (world0 tt 0 [])
    = (Raise ValueError, mkWorld tt 0 (np_zeros2 2 2) []) /\
  (@fit unit nat BanditEnv CounterRng (mkQLearning 0 1 0) 1 0 (world0 tt 0 [])
     = (Raise ZeroDivisionError,
        mkWorld tt 1 [[1; 0]; [0; 0]]%float
          [EvReset; EvStep 0; EvRandint 0 2; EvUniform 0 1; EvReset]) /\
   exists t,
     [EvReset; EvStep 0; EvRandint 0 2; EvUniform 0 1; EvReset] = t ++ [EvReset] /\
     step_calls t = 1) /\
  (exists avg_rewards,
     @fit unit nat BanditEnv CounterRng (mkQLearning 0 1 0) 0 1 (world0 tt 0 [])
       = (Ok (np_zeros2 2 2, avg_rewards), mkWorld tt 0 (np_zeros2 2 2) [EvReset]) /\
     length avg_rewards = 1).
Proof.
  split; [|split].
  - apply (proj1 (@fit_invalid_arguments unit nat BanditEnv CounterRng
                    (mkQLearning 0 1 0) 5 (-1) (world0 tt 0 []))). lia.
  - apply (proj1 (proj2 (proj1 (proj2
              (@fit_invalid_arguments unit nat BanditEnv CounterRng
                 (mkQLearning 0 1 0) 1 0 (world0 tt 0 []))) eq_refl))
             (mkFit 0 [1%float])
             (mkWorld tt 1 [[1; 0]; [0; 0]]%float
                [EvReset; EvStep 0; EvRandint 0 2; EvUniform 0 1; EvReset])).
    vm_compute. reflexivity.
  - apply (proj2 (proj2 (@fit_invalid_arguments unit nat BanditEnv CounterRng
                           (mkQLearning 0 1 0) 0 1 (world0 tt 0 [])))); lia.
Defined.

(** C5 fails as stated: with [steps = 0] and one bin, [fit] on the bandit
    signals nothing; it resets the environment and returns the zero table
    and a zero bin.  With [num_bins = 0] and one step the error comes after
    the reset, the two random draws and the step. *)
Lemma fit_zero_steps_is_no_error :
  @fit unit nat BanditEnv CounterRng (mkQLearning 0 1 0) 0 1 (world0 tt 0 [])
    = (Ok (np_zeros2 2 2, [0%float]),
       mkWorld tt 0 (np_zeros2 2 2) [EvReset]) /\
  ~ fails_before_interaction
      (@fit unit nat BanditEnv CounterRng (mkQLearning 0 1 0) 0 1)
      (world0 tt 0 []) /\
  @fit unit nat BanditEnv CounterRng (mkQLearning 0 1 0) 1 0 (world0 tt 0 [])
    = (Raise ZeroDivisionError,
       mkWorld tt 1 [[1; 0]; [0; 0]]%float
         [EvReset; EvStep 0; EvRandint 0 2; EvUniform 0 1; EvReset]).
Proof.
  split_and!; [reflexivity| |reflexivity].
  intros (e & He & _). vm_compute in He. discriminate.
Qed.

(** ** Pure exploration when epsilon is one *)

Section ExploreDraws.
Context {E G : Type} `{!Environment E} `{!RandomSource G}.
Implicit Types w : World E G.

(** The explore branch, evaluated: the real draw, then the integer draw over
    the actions made by the random source in the state the real draw left. *)
Lemma explore_action_eq w :
  explore_action w =
    (match (rand_randint 0 action_space_n (rand_uniform 0 1 (w_rng w)).2).1 with
     | inr action => Ok action
     | inl e => Raise e
     end,
     mkWorld (w_env w)
       (rand_randint 0 action_space_n (rand_uniform 0 1 (w_rng w)).2).2
       (w_sav w)
       (EvRandint 0 action_space_n :: EvUniform 0 1 :: w_trace w)).
Proof.
  unfold explore_action. rewrite (bind_ok _ _ _ _ _ (call_uniform_eq _ _ _)).
  by rewrite call_randint_eq.
Qed.

Lemma env_calls_no_draws t :
  Forall env_call t -> uniform_calls t = 0 /\ randint_calls t = 0.
Proof.
  induction 1 as [|ev t Hev _ IH]; [done|]. by destruct ev.
Qed.

Lemma env_calls_draws_over_actions t :
  Forall env_call t -> Forall draws_over_actions t.
Proof. intros Henv. eapply Forall_impl; [exact Henv|]. by intros []. Qed.

(** Whatever its outcome, the loop of pure exploration makes as many integer
    draws as real draws, all over the actions. *)
Lemma explore_only_loop_calls self n : forall st w,
  exists t,
    w_trace (explore_only_loop self n st w).2 = t ++ w_trace w /\
    Forall draws_over_actions t /\
    randint_calls t = uniform_calls t.
Proof.
  induction n as [|n IH]; intros st w; [by exists []|].
  cbn [explore_only_loop]. rewrite bind_assoc.
  unfold bind at 1. rewrite explore_action_eq.
  set (w1 := mkWorld _ _ _ _).
  destruct (rand_randint 0 action_space_n _).1 as [e|action]; simpl.
  - exists [EvRandint 0 action_space_n; EvUniform 0 1].
    split_and!; [done| |done]. by repeat constructor.
  - destruct (traces_step_and_update env_call self st action I I w1)
      as [_ (t1 & Ht1 & Henv)].
    destruct (env_calls_no_draws _ Henv) as [Hu1 Hr1].
    apply env_calls_draws_over_actions in Henv.
    unfold bind.
    destruct (step_and_update self st action w1) as [[st1|e|] w2]; simpl in *.
    + destruct (IH st1 w2) as (t & Ht & Hdraws & Hcount).
      exists (t ++ t1 ++ [EvRandint 0 action_space_n; EvUniform 0 1]).
      rewrite Ht, Ht1, <- !app_assoc.
      rewrite !randint_calls_app, !uniform_calls_app, !Forall_app.
      split_and!; try done; [by repeat constructor | simpl; lia].
    + exists (t1 ++ [EvRandint 0 action_space_n; EvUniform 0 1]).
      rewrite Ht1, <- !app_assoc.
      rewrite !randint_calls_app, !uniform_calls_app, !Forall_app.
      split_and!; try done; [by repeat constructor | simpl; lia].
    + exists (t1 ++ [EvRandint 0 action_space_n; EvUniform 0 1]).
      rewrite Ht1, <- !app_assoc.
      rewrite !randint_calls_app, !uniform_calls_app, !Forall_app.
      split_and!; try done; [by repeat constructor | simpl; lia].
Qed.

End ExploreDraws.

(** C7: with epsilon = 1.0 and real draws below one, every selection of an
    action in [fit] is the explore branch.  The action is the integer the
    random source draws over [0, A), right after its real draw; the table is
    not read and the tie-breaking argmax is not run.  A training step applies
    [step_and_update] to that very action.  Whatever the outcome of the
    training loop, it makes one integer draw per real draw and every one is
    over [0, A); when the loop completes [n] steps, it has made [n] of
    each. *)
Theorem epsilon_one_always_explores {E G : Type} `{!Environment E}
    `{!RandomSource G} (self : QLearning) :
  epsilon self = 1%float ->
  uniform_below_one ->
  (forall (s : nat) (w : World E G),
     select_action self s w =
       (match (rand_randint 0 action_space_n (rand_uniform 0 1 (w_rng w)).2).1 with
        | inr action => Ok action
        | inl e => Raise e
        end,
        mkWorld (w_env w)
          (rand_randint 0 action_space_n (rand_uniform 0 1 (w_rng w)).2).2
          (w_sav w)
          (EvRandint 0 action_space_n :: EvUniform 0 1 :: w_trace w))) /\
  (forall (st : FitState) (w : World E G) (action : nat),
     (rand_randint 0 action_space_n (rand_uniform 0 1 (w_rng w)).2).1
       = inr action ->
     fit_step self st w =
       step_and_update self st action
         (mkWorld (w_env w)
            (rand_randint 0 action_space_n (rand_uniform 0 1 (w_rng w)).2).2
            (w_sav w)
            (EvRandint 0 action_space_n :: EvUniform 0 1 :: w_trace w))) /\
  (forall (n : nat) (st : FitState) (w : World E G),
     exists t,
       w_trace (fit_loop self n st w).2 = t ++ w_trace w /\
       Forall draws_over_actions t /\
       randint_calls t = uniform_calls t /\
       (forall st', (fit_loop self n st w).1 = Ok st' ->
          randint_calls t = n /\ step_calls t = n)).
Proof.
  intros Heps Hunif.
  assert (Hsel : forall s (w : World E G),
             select_action self s w =
               (match (rand_randint 0 action_space_n
                         (rand_uniform 0 1 (w_rng w)).2).1 with
                | inr action => Ok action
                | inl e => Raise e
                end,
                mkWorld (w_env w)
                  (rand_randint 0 action_space_n (rand_uniform 0 1 (w_rng w)).2).2
                  (w_sav w)
                  (EvRandint 0 action_space_n :: EvUniform 0 1 :: w_trace w))).
  { intros s w. rewrite select_action_explores by done. apply explore_action_eq. }
  split_and!.
  - exact Hsel.
  - intros st w action Hdraw. unfold fit_step, bind.
    by rewrite Hsel, Hdraw.
  - intros n st w.
    destruct (explore_only_loop_calls self n st w) as (t & Ht & Hdraws & Hcount).
    rewrite <- fit_loop_explores in Ht by done.
    exists t. split_and!; try done.
    intros st' Hok.
    destruct (fit_loop self n st w) as [r w'] eqn:Hrun. simpl in Hok, Ht.
    subst r. apply fit_loop_calls in Hrun as (t' & Ht' & Hs & Hu & Hr & _).
    rewrite Ht in Ht'. apply app_inv_tail in Ht'. by subst t'.
Qed.

(** The counting source draws one half every time, which is below one.  On
    the table [[5; 0]; [0; 0]] the greedy action in state 0 is action 0;
    with epsilon = 1 the selection is the source's integer draw over the two
    actions instead, here action 1, and three training steps on the bandit
    make three integer draws, all over the two actions. *)
Lemma epsilon_one_always_explores_witness :
  @uniform_below_one nat CounterRng /\
  @select_action unit nat BanditEnv CounterRng (mkQLearning 1 0.5 0.5) 0
    (world0 tt 1 [[5; 0]; [0; 0]]%float)
  = (Ok 1, mkWorld tt 2 [[5; 0]; [0; 0]]%float [EvRandint 0 2; EvUniform 0 1]) /\
  @select_action unit nat BanditEnv CounterRng (mkQLearning 0 0.5 0.5) 0
    (world0 tt 1 [[5; 0]; [0; 0]]%float)
  = (Ok 0, mkWorld tt 2 [[5; 0]; [0; 0]]%float [EvRandint 0 1; EvUniform 0 1]) /\
  exists t,
    w_trace (@fit_loop unit nat BanditEnv CounterRng (mkQLearning 1 0.5 0.5) 3
               (mkFit 0 []) (world0 tt 1 [[5; 0]; [0; 0]]%float)).2 = t ++ [] /\
    Forall (@draws_over_actions unit BanditEnv) t /\
    randint_calls t = 3 /\ step_calls t = 3.
Proof.
  assert (Hunif : @uniform_below_one nat CounterRng) by (intros g; reflexivity).
  pose proof (@epsilon_one_always_explores unit nat BanditEnv CounterRng
                (mkQLearning 1 0.5 0.5) eq_refl Hunif) as (Hsel & _ & Hloop).
  split; [exact Hunif|]. split; [exact (Hsel 0 (world0 tt 1 [[5; 0]; [0; 0]]%float))|].
  split; [vm_compute; reflexivity|].
  destruct (Hloop 3 (mkFit 0 []) (world0 tt 1 [[5; 0]; [0; 0]]%float))
    as (t & Ht & Hdraws & _ & Hok).
  exists t. split; [exact Ht|]. split; [exact Hdraws|].
  eapply Hok. vm_compute. reflexivity.
Defined.

(** ** Greedy choices *)

Section Greedy.
Context {E G : Type} `{!Environment E} `{!RandomSource G}.
Implicit Types w : World E G.

Lemma greedy_of_argmax w s row a w1 :
  w_sav w !! s = Some row ->
  argmax_tiebreak row w = (Ok a, w1) ->
  greedy_at (w_sav w) s a.
Proof.
  intros Hrow Harg.
  apply argmax_tiebreak_inv in Harg as (m & v & Hm & Hv & Hvm & _).
  exists row, m, v. split_and!; try done.
  apply np_max_upper; [|done].
  apply np_max_not_nan with m; [done|].
  by apply float_eqb_not_nan in Hvm as [_ ?].
Qed.

Lemma predict_while_greedy fuel :
  forall s states actions rewards w res w',
    predict_while fuel false false s states actions rewards w = (Ok res, w') ->
    exists ss acts t,
      res.1.1 = states ++ ss /\ res.1.2 = actions ++ acts /\
      (forall i a, acts !! i = Some a ->
         exists si, (s :: ss) !! i = Some si /\ greedy_at (w_sav w) si a) /\
      w_trace w' = t ++ w_trace w /\
      uniform_calls t = 0 /\ reset_calls t = 0 /\
      randint_calls t = length acts.
Proof.
  induction fuel as [|fuel IH]; intros s states actions rewards w res w' Hrun;
    [done|].
  simpl in Hrun.
  apply bind_ok_inv in Hrun as (row & w0 & Hrow & Hrun).
  apply read_row_inv in Hrow as [-> Hrow].
  apply bind_ok_inv in Hrun as (a & w1 & Harg & Hrun).
  pose proof (greedy_of_argmax w s row a w1 Hrow Harg) as Hgreedy.
  apply argmax_tiebreak_inv in Harg as (m & v & _ & _ & _ & _ & Hsav & Ht1).
  rewrite (bind_ok _ _ _ _ _ (call_step_eq a w1)) in Hrun.
  set (sd := (env_step a (w_env w1)).1) in *.
  set (w2 := mkWorld _ _ _ _) in Hrun.
  destruct (sd_terminated sd || sd_truncated sd) eqn:Hdone.
  - rewrite predict_while_done in Hrun by done. injection Hrun as <- <-.
    exists [sd_state sd], [a], [EvStep a; EvRandint 0 (length (np_where_eq row m 0))].
    simpl. split_and!; try done.
    + intros [|i] a' Ha'; [|done]. injection Ha' as <-. by exists s.
    + by rewrite Ht1.
  - apply orb_false_elim in Hdone as [Hterm Htrunc].
    rewrite Hterm, Htrunc in Hrun.
    apply IH in Hrun as (ss & acts & t & Hss & Hacts & Hg & Ht & Hu & Hr & Hn).
    exists (sd_state sd :: ss), (a :: acts),
      (t ++ [EvStep a; EvRandint 0 (length (np_where_eq row m 0))]).
    split_and!.
    + by rewrite Hss, <- app_assoc.
    + by rewrite Hacts, <- app_assoc.
    + intros [|i] a' Ha'; simpl in Ha'.
      * injection Ha' as <-. by exists s.
      * destruct (Hg i a' Ha') as (si & Hsi & Hgi).
        exists si. split; [done|]. simpl in Hgi. by rewrite <- Hsav.
    + rewrite Ht. simpl. by rewrite Ht1, <- app_assoc.
    + rewrite uniform_calls_app. simpl. lia.
    + rewrite reset_calls_app. simpl. lia.
    + rewrite randint_calls_app. simpl. lia.
Qed.

Lemma predict_after_reset fuel w :
  predict fuel w
  = predict_while fuel false false (env_reset (w_env w)).1 [] [] []
      (mkWorld (env_reset (w_env w)).2 (w_rng w) (w_sav w)
         (EvReset :: w_trace w)).
Proof. unfold predict. by rewrite (bind_ok _ _ _ _ _ (call_reset_eq w)). Qed.

End Greedy.

(** X4: with alpha = 0 a training step does not change the estimate it
    updates ("0 means don't change the Q estimate"), as long as the
    temporal-difference error [reward + gamma * max - q] is a finite number:
    the entry still compares equal to its old value, and no other entry
    changes either. *)
Theorem alpha_zero_keeps_estimate {E G : Type} `{!Environment E}
    `{!RandomSource G} (self : QLearning) (st : FitState) (w w1 : World E G)
    (a : nat) (sd : StepData) (e2 : E) (q m : float) (next_row : list float) :
  alpha self = 0%float ->
  select_action self (current_state st) w = (Ok a, w1) ->
  env_step a (w_env w1) = (sd, e2) ->
  entry (w_sav w) (current_state st) a = Some q ->
  w_sav w !! sd_state sd = Some next_row ->
  np_max next_row = Ok m ->
  is_finite (sd_reward sd + gamma self * m - q)%float = true ->
  exists st' w' q',
    fit_step self st w = (Ok st', w') /\
    entry (w_sav w') (current_state st) a = Some q' /\
    (q' =? q)%float = true /\
    (forall s' a', (s', a') <> (current_state st, a) ->
       entry (w_sav w') s' a' = entry (w_sav w) s' a').
Proof.
  intros Halpha Hsel Hstep Hq Hrow Hmax Hfin.
  pose proof (sav_stable_select self (current_state st) w) as Hsav.
  rewrite Hsel in Hsav. simpl in Hsav. rewrite <- Hsav in Hq, Hrow.
  destruct (step_and_update_ok self st a w1 sd e2 q next_row m Hstep Hq Hrow Hmax)
    as (w' & Hrun & Hnew & Hframe & _).
  unfold fit_step. rewrite (bind_ok _ _ _ _ _ Hsel).
  eexists _, w', _. split_and!; [exact Hrun | exact Hnew | | ].
  - by apply td_update_alpha_zero.
  - intros s' a' Hne. rewrite <- Hsav. by apply Hframe.
Qed.

(** On the bandit with alpha = 0 and gamma = 1/2 the greedy step from
    [[0.25, 0.75]] takes action 1; the error is [0 + 0.375 - 0.75] and the
    entry stays 0.75. *)
Lemma alpha_zero_keeps_estimate_witness :
  exists st' w' q',
    @fit_step unit nat BanditEnv CounterRng (mkQLearning 0 0 0.5) (mkFit 0 [])
      (world0 tt 0 [[0.25; 0.75]; [0; 0]]%float) = (Ok st', w') /\
    entry (w_sav w') 0 1 = Some q' /\
    (q' =? 0.75)%float = true /\
    (forall s' a', (s', a') <> (0, 1) ->
       entry (w_sav w') s' a' = entry [[0.25; 0.75]; [0; 0]]%float s' a').
Proof.
  exact (@alpha_zero_keeps_estimate unit nat BanditEnv CounterRng
           (mkQLearning 0 0 0.5) (mkFit 0 [])
           (world0 tt 0 [[0.25; 0.75]; [0; 0]]%float)
           (mkWorld tt 1 [[0.25; 0.75]; [0; 0]]%float
              [EvRandint 0 1; EvUniform 0 1])
           1 (mkStep 0 0 true false) tt 0.75%float 0.75%float
           [0.25; 0.75]%float
           eq_refl eq_refl eq_refl eq_refl eq_refl eq_refl eq_refl).
Defined.

(** X5: when the real draw of a training step is not below epsilon, the
    action the step selects is greedy for the current state: its value
    equals the maximum of the state's row, and that maximum bounds the
    row. *)
Theorem exploiting_step_is_greedy {E G : Type} `{!Environment E}
    `{!RandomSource G} (self : QLearning) (s : nat) (w w1 : World E G)
    (a : nat) :
  ((rand_uniform 0 1 (w_rng w)).1 <? epsilon self)%float = false ->
  select_action self s w = (Ok a, w1) ->
  greedy_at (w_sav w) s a.
Proof.
  intros Hu Hsel. unfold select_action in Hsel.
  rewrite (bind_ok _ _ _ _ _ (call_uniform_eq _ _ _)), Hu in Hsel.
  apply bind_ok_inv in Hsel as (row & w0 & Hrow & Harg).
  apply read_row_inv in Hrow as [-> Hrow].
  by eapply (greedy_of_argmax (mkWorld _ _ _ _)).
Qed.

(** The counting source draws 0.5, not below epsilon = 0.125: from the row
    [[0.25, 0.75]] the step selects action 1. *)
Lemma exploiting_step_is_greedy_witness :
  @select_action unit nat BanditEnv CounterRng (mkQLearning 0.125 0.5 0.5) 0
    (world0 tt 0 [[0.25; 0.75]; [0; 0]]%float)
  = (Ok 1, mkWorld tt 1 [[0.25; 0.75]; [0; 0]]%float
             [EvRandint 0 1; EvUniform 0 1]) /\
  greedy_at [[0.25; 0.75]; [0; 0]]%float 0 1.
Proof.
  split; [reflexivity|].
  exact (@exploiting_step_is_greedy unit nat BanditEnv CounterRng
           (mkQLearning 0.125 0.5 0.5) 0
           (world0 tt 0 [[0.25; 0.75]; [0; 0]]%float)
           (mkWorld tt 1 [[0.25; 0.75]; [0; 0]]%float
              [EvRandint 0 1; EvUniform 0 1]) 1 eq_refl eq_refl).
Defined.

(** X6: [predict] never explores: the trace of a call that returns holds,
    after the reset, no real draw and no further reset, and exactly one
    integer draw (the tie-break) per action of the trajectory. *)
Theorem predict_never_explores {E G : Type} `{!Environment E}
    `{!RandomSource G} (fuel : nat) (w w' : World E G)
    (states actions : list nat) (rewards : list float) :
  predict fuel w = (Ok (states, actions, rewards), w') ->
  exists t,
    w_trace w' = t ++ EvReset :: w_trace w /\
    uniform_calls t = 0 /\
    reset_calls t = 0 /\
    randint_calls t = length actions.
Proof.
  rewrite predict_after_reset. intros Hrun.
  apply predict_while_greedy in Hrun
    as (ss & acts & t & _ & Hacts & _ & Ht & Hu & Hr & Hn).
  simpl in *. subst actions. by exists t.
Qed.

(** In the corridor the trajectory has three actions; the trace holds three
    integer draws and neither a real draw nor a second reset. *)
Lemma predict_never_explores_witness :
  @predict nat nat CorridorEnv CounterRng 4
    (world0 7 0 [[0; 1]; [0; 1]; [0; 1]; [0; 0]]%float)
  = (Ok ([1; 2; 3], [1; 1; 1], [1; 1; 1]%float),
     mkWorld 3 3 [[0; 1]; [0; 1]; [0; 1]; [0; 0]]%float
       [EvStep 1; EvRandint 0 1; EvStep 1; EvRandint 0 1;
        EvStep 1; EvRandint 0 1; EvReset]) /\
  exists t,
    [EvStep 1; EvRandint 0 1; EvStep 1; EvRandint 0 1;
     EvStep 1; EvRandint 0 1; EvReset] = t ++ [EvReset] /\
    uniform_calls t = 0 /\ reset_calls t = 0 /\ randint_calls t = 3.
Proof.
  split; [reflexivity|].
  exact (@predict_never_explores nat nat CorridorEnv CounterRng 4
           (world0 7 0 [[0; 1]; [0; 1]; [0; 1]; [0; 0]]%float)
           (mkWorld 3 3 [[0; 1]; [0; 1]; [0; 1]; [0; 0]]%float
              [EvStep 1; EvRandint 0 1; EvStep 1; EvRandint 0 1;
               EvStep 1; EvRandint 0 1; EvReset])
           [1; 2; 3] [1; 1; 1] [1; 1; 1]%float eq_refl).
Defined.

(** X7: [predict] follows the greedy policy of the table it is given: every
    action of a returned trajectory is greedy for the state it was chosen
    in, the state of the reset for the first action and the state returned
    by the previous step for the others. *)
Theorem predict_follows_greedy_policy {E G : Type} `{!Environment E}
    `{!RandomSource G} (fuel : nat) (w w' : World E G)
    (states actions : list nat) (rewards : list float) :
  predict fuel w = (Ok (states, actions, rewards), w') ->
  forall i a,
    actions !! i = Some a ->
    exists s,
      ((env_reset (w_env w)).1 :: states) !! i = Some s /\
      greedy_at (w_sav w) s a.
Proof.
  rewrite predict_after_reset. intros Hrun.
  apply predict_while_greedy in Hrun
    as (ss & acts & t & Hss & Hacts & Hg & _).
  simpl in *. subst states actions. exact Hg.
Qed.

(** In the corridor the second action, 1, was chosen in state 1, the state
    the first step returned, and is greedy there. *)
Lemma predict_follows_greedy_policy_witness :
  @predict nat nat CorridorEnv CounterRng 4
    (world0 7 0 [[0; 1]; [0; 1]; [0; 1]; [0; 0]]%float)
  = (Ok ([1; 2; 3], [1; 1; 1], [1; 1; 1]%float),
     mkWorld 3 3 [[0; 1]; [0; 1]; [0; 1]; [0; 0]]%float
       [EvStep 1; EvRandint 0 1; EvStep 1; EvRandint 0 1;
        EvStep 1; EvRandint 0 1; EvReset]) /\
  exists s,
    [0; 1; 2; 3] !! 1 = Some s /\
    greedy_at [[0; 1]; [0; 1]; [0; 1]; [0; 0]]%float s 1.
Proof.
  split; [reflexivity|].
  exact (@predict_follows_greedy_policy nat nat CorridorEnv CounterRng 4
           (world0 7 0 [[0; 1]; [0; 1]; [0; 1]; [0; 0]]%float)
           (mkWorld 3 3 [[0; 1]; [0; 1]; [0; 1]; [0; 0]]%float
              [EvStep 1; EvRandint 0 1; EvStep 1; EvRandint 0 1;
               EvStep 1; EvRandint 0 1; EvReset])
           [1; 2; 3] [1; 1; 1] [1; 1; 1]%float eq_refl 1 1 eq_refl).
Defined.

(** ** predict on a table it cannot index *)

(** X8: when the state returned by the reset is not a row of the table (in
    particular when the table has no row), [predict] raises [IndexError], and
    when that row is empty (no action) it raises [ValueError]; in both cases
    the environment has been reset and nothing else has been called. *)
Theorem predict_fails_before_first_step {E G : Type} `{!Environment E}
    `{!RandomSource G} (fuel : nat) (w : World E G) :
  (w_sav w !! (env_reset (w_env w)).1 = None ->
   predict (S fuel) w
   = (Raise IndexError,
      mkWorld (env_reset (w_env w)).2 (w_rng w) (w_sav w)
        (EvReset :: w_trace w))) /\
  (w_sav w !! (env_reset (w_env w)).1 = Some [] ->
   predict (S fuel) w
   = (Raise ValueError,
      mkWorld (env_reset (w_env w)).2 (w_rng w) (w_sav w)
        (EvReset :: w_trace w))).
Proof.
  split; intros Hrow; rewrite predict_after_reset; simpl;
    unfold bind, read_row; simpl; by rewrite Hrow.
Qed.

(** The bandit with an empty table, and with a table of empty rows. *)
Lemma predict_fails_before_first_step_witness :
  @predict unit nat BanditEnv CounterRng 3 (world0 tt 0 [])
  = (Raise IndexError, mkWorld tt 0 [] [EvReset]) /\
  @predict unit nat BanditEnv CounterRng 3 (world0 tt 0 [[]; []])
  = (Raise ValueError, mkWorld tt 0 [[]; []] [EvReset]).
Proof.
  split.
  - exact (proj1 (@predict_fails_before_first_step unit nat BanditEnv
                    CounterRng 2 (world0 tt 0 [])) eq_refl).
  - exact (proj2 (@predict_fails_before_first_step unit nat BanditEnv
                    CounterRng 2 (world0 tt 0 [[]; []])) eq_refl).
Defined.

(** ** The bins partition the reward trace *)

Section Partition.

Lemma concat_take_drop {A} (b : nat) (l : list A) : forall n,
  concat (map (fun i => take b (drop (i * b) l)) (seq 0 n)) ++ drop (n * b) l = l.
Proof.
  induction n as [|n IH]; [done|].
  rewrite seq_S, map_app, concat_app. simpl. rewrite app_nil_r, <- !app_assoc.
  replace (b + n * b) with (n * b + b) by lia.
  rewrite <- drop_drop, take_drop. exact IH.
Qed.

Lemma bin_slice_inner rewards num_bins bin_size (i : nat) :
  (0 <= bin_size)%Z -> (Z.of_nat i < num_bins - 1)%Z ->
  bin_slice rewards num_bins bin_size i
  = take (Z.to_nat bin_size) (drop (i * Z.to_nat bin_size) rewards).
Proof.
  intros Hbs Hi. unfold bin_slice.
  rewrite (proj2 (Z.ltb_lt (Z.of_nat i) (num_bins - 1)) Hi).
  rewrite py_slice_nonneg by lia.
  remember (Z.to_nat bin_size) as b eqn:Hb.
  replace bin_size with (Z.of_nat b) by lia.
  rewrite <- Nat2Z.inj_mul, <- Nat2Z.inj_add, !Nat2Z.id.
  do 2 f_equal. lia.
Qed.

Lemma bin_slice_last rewards num_bins bin_size (i : nat) :
  (0 <= bin_size)%Z -> Z.of_nat i = (num_bins - 1)%Z ->
  bin_slice rewards num_bins bin_size i
  = drop (i * Z.to_nat bin_size) rewards.
Proof.
  intros Hbs Hi. unfold bin_slice.
  rewrite (proj2 (Z.ltb_ge (Z.of_nat i) (num_bins - 1))) by lia.
  remember (Z.to_nat bin_size) as b eqn:Hb.
  replace bin_size with (Z.of_nat b) by lia.
  rewrite <- Nat2Z.inj_mul.
  destruct (decide (i * Z.to_nat bin_size <= length rewards)) as [Hin|Hout].
  - rewrite py_slice_nonneg by lia. rewrite !Nat2Z.id.
    rewrite take_ge; [done | rewrite length_drop; lia].
  - rewrite (drop_ge rewards) by lia.
    unfold py_slice, py_bound.
    rewrite !(proj2 (Z.ltb_ge _ _)) by lia.
    rewrite Z.min_id, Z.min_r by lia. by rewrite Nat.sub_diag, take_0.
Qed.

End Partition.

(** X9: for at least one bin and a bin size of at least one, the slices the
    binning loop takes for bins [0 .. num_bins-1], put end to end, are the
    reward trace itself: every reward is counted in exactly one bin, in the
    order of the trace. *)
Theorem bins_partition_trace (rewards : list float) (num_bins bin_size : Z) :
  (1 <= num_bins)%Z ->
  (1 <= bin_size)%Z ->
  concat (map (bin_slice rewards num_bins bin_size) (seq 0 (Z.to_nat num_bins)))
    = rewards.
Proof.
  intros Hbins Hbs.
  replace (Z.to_nat num_bins) with (S (Z.to_nat num_bins - 1)) by lia.
  rewrite seq_S, map_app, concat_app. simpl. rewrite app_nil_r.
  rewrite bin_slice_last by lia.
  rewrite (map_ext_in _ (fun i => take (Z.to_nat bin_size)
                                   (drop (i * Z.to_nat bin_size) rewards))).
  - apply concat_take_drop.
  - intros i [_ Hi]%in_seq. apply bin_slice_inner; lia.
Qed.

(** Five rewards in three bins of two: the slices are the first two, the
    next two and the last one. *)
Lemma bins_partition_trace_witness :
  map (bin_slice [1; 2; 3; 4; 5]%float 3 2) [0; 1; 2]
    = [[1; 2]; [3; 4]; [5]]%float /\
  concat (map (bin_slice [1; 2; 3; 4; 5]%float 3 2) (seq 0 (Z.to_nat 3)))
    = [1; 2; 3; 4; 5]%float.
Proof.
  split; [reflexivity|].
  apply (bins_partition_trace [1; 2; 3; 4; 5]%float 3 2 ltac:(lia) ltac:(lia)).
Defined.
